(** * Splay tree (package splaytree): shallow embedding and verified properties

    The Go package stores values of a caller-supplied type in a binary
    tree whose nodes own their children exclusively: there are no parent
    links, no sharing and no cycles.  A [*Node] is therefore embedded as
    an inductive tree in which [nil] is the nil pointer, and every
    in-place update of a [Left]/[Right] field or of a root slot becomes
    the construction of the updated node. *)

From Stdlib Require Import ZArith List Bool Lia Sorted Permutation FunInd.
From Stdlib Require String Ascii.
Import ListNotations.

Local Open Scope Z_scope.

Section SplayTree.

(** [T] is the value type; [Compare x y] is the method call
    [x.Compare(y)]: positive when [x] is greater, negative when it is
    less, zero when equal.  Its result is a Go [int], of which the code
    only tests the sign. *)
Context {T : Type} (Compare : T -> T -> Z).

(** The zero value of [T], returned by [Min] and [Max] on an empty tree. *)
Context (zeroVal : T).

(** ** Data model *)

(** [type Node struct { Value T; Left *Node; Right *Node }], with [nil]
    for the nil pointer. *)
Inductive Node : Type :=
| nil : Node
| node (Value : T) (Left Right : Node) : Node.

(** [type Tree struct { Root *Node }] *)
Record Tree : Type := mkTree { Root : Node }.

(** The tree a zero [Tree{}] denotes. *)
Definition empty : Tree := mkTree nil.

Definition is_nil (n : Node) : bool :=
  match n with nil => true | node _ _ _ => false end.

(** A search key is anything with a [Compare] method against stored
    values: [key x] stands for [v.Compare(x)].  A stored value [v] gives
    the key [Compare v]. *)
Definition Key : Type := T -> Z.

(** [greatestValue.Compare] and [smallestValue.Compare]. *)
Definition greatestValue : Key := fun _ => 1.
Definition smallestValue : Key := fun _ => -1.

(** ** The splay primitive *)

(** [splay(root **Node, v)].  The argument is the content of the slot
    and the result is its content on return.  The recursive calls act on
    the slots [&n1.Right] / [&n1.Left]; [n2] is read back from the slot.
    A recursive call is only made on a non-nil slot and leaves it
    non-nil ([splay_node] below), so the [nil] alternative of the inner
    matches, where Go would dereference a nil [n2], is never taken. *)
Fixpoint splay (v : Key) (root : Node) : Node :=
  match root with
  | nil => nil
  | node x l r =>
    let comparison := v x in
    if comparison <? 0 then
      match l with
      | nil => root
      | node x1 l1 r1 =>
        let comparison := v x1 in
        if (0 <? comparison) && negb (is_nil r1) then
          match splay v r1 with
          | node x2 l2 r2 => node x2 (node x1 l1 l2) (node x r2 r)
          | nil => root
          end
        else if (comparison <? 0) && negb (is_nil l1) then
          match splay v l1 with
          | node x2 l2 r2 => node x2 l2 (node x1 r2 (node x r1 r))
          | nil => root
          end
        else node x1 l1 (node x r1 r)
      end
    else if 0 <? comparison then
      match r with
      | nil => root
      | node x1 l1 r1 =>
        let comparison := v x1 in
        if (comparison <? 0) && negb (is_nil l1) then
          match splay v l1 with
          | node x2 l2 r2 => node x2 (node x l l2) (node x1 r2 r1)
          | nil => root
          end
        else if (0 <? comparison) && negb (is_nil r1) then
          match splay v r1 with
          | node x2 l2 r2 => node x2 (node x1 (node x l l1) l2) r2
          | nil => root
          end
        else node x1 (node x l l1) r1
      end
    else root
  end.

(** Induction scheme following the fourteen paths through [splay]. *)
Functional Scheme splay_ind := Induction for splay Sort Prop.

(** ** Node-level observers *)

(** Heights and lengths are Go [int]s.  Each node counted occupies
    memory, so neither can reach the 64-bit bound and the additions
    never wrap: they are plain additions on [Z]. *)

(** [func (n *Node) height() int] *)
Fixpoint height (n : Node) : Z :=
  match n with
  | nil => 0
  | node _ l r =>
    let h1 := height l in
    let h2 := height r in
    if h2 <? h1 then 1 + h1 else 1 + h2
  end.

(** [func (n *Node) Len() int] *)
Fixpoint Len (n : Node) : Z :=
  match n with
  | nil => 0
  | node _ l r => 1 + Len l + Len r
  end.

(** In-order sequence of the stored values (left, value, right). *)
Fixpoint inorder (n : Node) : list T :=
  match n with
  | nil => []
  | node x l r => inorder l ++ x :: inorder r
  end.

(** Value held by the node a slot references, if any. *)
Definition root_value (n : Node) : option T :=
  match n with nil => None | node x _ _ => Some x end.

(** ** Public operations on [*Tree] *)

(** [func (t *Tree) Insert(v T)] *)
Definition Insert (v : T) (t : Tree) : Tree :=
  if is_nil (Root t) then mkTree (node v nil nil)
  else
    match splay (Compare v) (Root t) with
    | nil => mkTree nil
    | node x l r =>
      let comparison := Compare v x in
      if comparison <? 0 then mkTree (node v l (node x nil r))
      else if 0 <? comparison then mkTree (node v (node x l nil) r)
      else mkTree (node v l (node x nil r))
    end.

(** [func (t *Tree) Delete(v Value)].  The second splay acts on the slot
    [&t.Root.Left]; the assignment [t.Root.Left.Right = t.Root.Right]
    overwrites whatever right child the splayed left subtree has. *)
Definition Delete (v : Key) (t : Tree) : Tree :=
  if is_nil (Root t) then t
  else
    match splay v (Root t) with
    | nil => mkTree nil
    | node x l r =>
      if negb (v x =? 0) then mkTree (node x l r)
      else if is_nil l then mkTree r
      else
        match splay greatestValue l with
        | nil => mkTree nil
        | node x2 l2 _ => mkTree (node x2 l2 r)
        end
    end.

(** [func (t *Tree) Height() int] *)
Definition Height (t : Tree) : Z := height (Root t).

(** [func (t *Tree) Len() int] *)
Definition Tree_Len (t : Tree) : Z := Len (Root t).

(** The loop [for n.Left != nil { n = n.Left }; return n.Value], started
    at a node with value [x] and left child [l]. *)
Fixpoint walk_left (x : T) (l : Node) : T :=
  match l with
  | nil => x
  | node x' l' _ => walk_left x' l'
  end.

(** The loop [for n.Right != nil { n = n.Right }; return n.Value]. *)
Fixpoint walk_right (x : T) (r : Node) : T :=
  match r with
  | nil => x
  | node x' _ r' => walk_right x' r'
  end.

(** [func (t *Tree[T]) Min() T]: the leftmost value, or the zero value
    of [T] if the tree is empty. *)
Definition Min (t : Tree) : T :=
  match Root t with
  | nil => zeroVal
  | node x l _ => walk_left x l
  end.

(** [func (t *Tree[T]) Max() T] *)
Definition Max (t : Tree) : T :=
  match Root t with
  | nil => zeroVal
  | node x _ r => walk_right x r
  end.

(** The leftmost and the rightmost value of a tree that has a node,
    [None] for a tree that has none: what [Min] and [Max] return on a
    non-empty tree, whatever the zero value. *)
Definition Min_iface (t : Tree) : option T :=
  match Root t with
  | nil => None
  | node x l _ => Some (walk_left x l)
  end.

Definition Max_iface (t : Tree) : option T :=
  match Root t with
  | nil => None
  | node x _ r => Some (walk_right x r)
  end.

(** ** Iteration *)

(** The visit function is a Go closure: it may carry state of its own,
    of type [S].  A call [f(x)] is recorded in a log of the arguments
    [f] has been called on, oldest first. *)
Section Iteration.
Context {S : Type} (f : T -> S -> bool * S).

Definition call_visit (x : T) (w : S * list T) : bool * (S * list T) :=
  let '(b, s') := f x (fst w) in (b, (s', snd w ++ [x])).

(** [func (n *Node[T]) Iterate(f func(T) bool) bool] *)
Fixpoint Node_Iterate (n : Node) (w : S * list T) : bool * (S * list T) :=
  match n with
  | nil => (true, w)
  | node x l r =>
    let '(ok1, w1) :=
      if negb (is_nil l) then Node_Iterate l w else (true, w) in
    if negb ok1 then (false, w1)
    else
      let '(ok2, w2) := call_visit x w1 in
      if negb ok2 then (false, w2)
      else if negb (is_nil r) then Node_Iterate r w2
      else (true, w2)
  end.

(** [func (t *Tree[T]) Iterate(f func(T) bool)] *)
Definition Iterate (t : Tree) (w : S * list T) : S * list T :=
  snd (Node_Iterate (Root t) w).

(** Reference behaviour of a stoppable pass over a sequence: call [f]
    on the elements in turn and stop after the first call that returns
    false. *)
Fixpoint visit_seq (xs : list T) (w : S * list T) : bool * (S * list T) :=
  match xs with
  | [] => (true, w)
  | x :: xs' =>
    let '(ok, w1) := call_visit x w in
    if ok then visit_seq xs' w1 else (false, w1)
  end.

End Iteration.

(** ** Programs over the public interface *)

Inductive call : Type :=
| CallInsert (v : T)
| CallDelete (v : T)
| CallMin
| CallMax
| CallHeight
| CallLen.

Inductive reply : Type :=
| Done
| Val (x : T)
| Int (n : Z).

(** The tree a call leaves behind: only [Insert] and [Delete] assign to
    the tree or its nodes. *)
Definition step (c : call) (t : Tree) : Tree :=
  match c with
  | CallInsert v => Insert v t
  | CallDelete v => Delete (Compare v) t
  | CallMin | CallMax | CallHeight | CallLen => t
  end.

(** What a call returns. *)
Definition answer (c : call) (t : Tree) : reply :=
  match c with
  | CallInsert _ | CallDelete _ => Done
  | CallMin => Val (Min t)
  | CallMax => Val (Max t)
  | CallHeight => Int (Height t)
  | CallLen => Int (Tree_Len t)
  end.

(** One call on the tree: the tree it leaves and what it returns. *)
Definition exec (c : call) (t : Tree) : Tree * reply :=
  (step c t, answer c t).

(** The tree after a sequence of calls, made in order. *)
Definition run (cs : list call) (t : Tree) : Tree :=
  fold_left (fun t c => step c t) cs t.

(** ** Specification vocabulary *)

(** [x] is at most [y] under [Compare]. *)
Definition leq (x y : T) : Prop := Compare x y <= 0.

(** What the caller owes: [Compare] is a consistent total order. *)
Record total_order : Prop := {
  Compare_antisym : forall x y, Compare x y < 0 <-> 0 < Compare y x;
  Compare_trans : forall x y z, leq x y -> leq y z -> leq x z
}.

(** A key is consistent with the order when larger values never compare
    as smaller against it.  [Compare v] and the two sentinels are. *)
Definition key_monotone (v : Key) : Prop :=
  forall x y, leq x y -> (0 < v y -> 0 < v x) /\ (v x < 0 -> v y < 0).

(** Values below / above a key: the key compares greater / less. *)
Definition below (v : Key) (xs : list T) : Prop :=
  Forall (fun y => 0 < v y) xs.
Definition above (v : Key) (xs : list T) : Prop :=
  Forall (fun y => v y < 0) xs.

(** Where the root of a slot stands with respect to a key: when the key
    is less than the root every value left of the root is below the key,
    and when it is greater every value right of the root is above it. *)
Definition root_splits (v : Key) (n : Node) : Prop :=
  match n with
  | nil => True
  | node x l r =>
    (v x < 0 -> below v (inorder l)) /\ (0 < v x -> above v (inorder r))
  end.

(** The ordering invariant on nodes. *)
Fixpoint bst (n : Node) : Prop :=
  match n with
  | nil => True
  | node x l r =>
    bst l /\ bst r /\
    Forall (fun y => leq y x) (inorder l) /\
    Forall (fun y => leq x y) (inorder r)
  end.

(** A non-descending sequence. *)
Definition ascending (xs : list T) : Prop := StronglySorted leq xs.

(** Number of elements of [xs] that compare equal to [x]. *)
Fixpoint count_eq (x : T) (xs : list T) : Z :=
  match xs with
  | [] => 0
  | y :: xs' => (if Compare x y =? 0 then 1 else 0) + count_eq x xs'
  end.

(** Number of nodes of the tree whose value compares equal to [x]. *)
Definition occurrences (x : T) (t : Tree) : Z :=
  count_eq x (inorder (Root t)).

(** A node equal to [x] is present. *)
Definition present (x : T) (t : Tree) : bool :=
  existsb (fun y => Compare x y =? 0) (inorder (Root t)).

(** Number of [Insert] calls in [cs] with a value equal to [x]. *)
Fixpoint inserts_of (x : T) (cs : list call) : Z :=
  match cs with
  | [] => 0
  | CallInsert v :: cs' =>
    (if Compare x v =? 0 then 1 else 0) + inserts_of x cs'
  | _ :: cs' => inserts_of x cs'
  end.

(** Number of successful [Delete] calls in [cs] with a value equal to
    [x], the calls being made in order from tree [t]: a [Delete(v)] is
    successful when a node equal to [v] is present at the time. *)
Fixpoint successful_deletes_of (x : T) (cs : list call) (t : Tree) : Z :=
  match cs with
  | [] => 0
  | c :: cs' =>
    (match c with
     | CallDelete v =>
       if (Compare x v =? 0) && present v t then 1 else 0
     | _ => 0
     end) + successful_deletes_of x cs' (step c t)
  end.

(** Total number of [Insert] calls and of successful [Delete] calls. *)
Fixpoint inserts (cs : list call) : Z :=
  match cs with
  | [] => 0
  | CallInsert _ :: cs' => 1 + inserts cs'
  | _ :: cs' => inserts cs'
  end.

Fixpoint successful_deletes (cs : list call) (t : Tree) : Z :=
  match cs with
  | [] => 0
  | c :: cs' =>
    (match c with
     | CallDelete v => if present v t then 1 else 0
     | _ => 0
     end) + successful_deletes cs' (step c t)
  end.

(** [Insert] as the specification describes it. *)
Inductive Insert_spec (v : T) (t : Tree) : Tree -> Prop :=
| Insert_empty :
    Root t = nil ->
    Insert_spec v t (mkTree (node v nil nil))
| Insert_less x l r :
    Root t <> nil -> splay (Compare v) (Root t) = node x l r ->
    Compare v x < 0 ->
    Insert_spec v t (mkTree (node v l (node x nil r)))
| Insert_greater x l r :
    Root t <> nil -> splay (Compare v) (Root t) = node x l r ->
    0 < Compare v x ->
    Insert_spec v t (mkTree (node v (node x l nil) r))
| Insert_equal x l r :
    Root t <> nil -> splay (Compare v) (Root t) = node x l r ->
    Compare v x = 0 ->
    Insert_spec v t (mkTree (node v l (node x nil r))).

(** [Delete] as the specification describes it; in the last case [m] is
    the node the sentinel splay brings to the top of the left subtree:
    it comes last in that subtree and has no right child. *)
Inductive Delete_spec (v : Key) (t : Tree) : Tree -> Prop :=
| Delete_empty :
    Root t = nil ->
    Delete_spec v t t
| Delete_miss x l r :
    Root t <> nil -> splay v (Root t) = node x l r ->
    v x <> 0 ->
    Delete_spec v t (mkTree (node x l r))
| Delete_no_left x r :
    Root t <> nil -> splay v (Root t) = node x nil r ->
    v x = 0 ->
    Delete_spec v t (mkTree r)
| Delete_join x l r m l' :
    Root t <> nil -> splay v (Root t) = node x l r ->
    v x = 0 -> l <> nil ->
    splay greatestValue l = node m l' nil ->
    inorder l = inorder l' ++ [m] ->
    Delete_spec v t (mkTree (node m l' r)).

(** The naive search for a key: the values met on the way down, going
    left when the key is less, right when it is greater, and stopping at
    an equal value or at a missing child. *)
Fixpoint search_path (v : Key) (n : Node) : list T :=
  match n with
  | nil => []
  | node x l r =>
    x :: (if v x <? 0 then search_path v l
          else if 0 <? v x then search_path v r
          else [])
  end.

(** The value the naive search ends on. *)
Definition search_end (v : Key) (n : Node) : option T :=
  match rev (search_path v n) with
  | [] => None
  | x :: _ => Some x
  end.

End SplayTree.

Arguments Node : clear implicits.
Arguments Tree : clear implicits.
Arguments Key : clear implicits.
Arguments call : clear implicits.
Arguments reply : clear implicits.

(** ** The revision over the [Value] interface *)

(** There the stored values are interface values, and an interface
    value may be nil: [None].  [Insert] on an empty tree stores its
    argument without calling [Compare], nil included.  [Min] and [Max]
    return nil on an empty tree and the stored [n.Value] otherwise:
    they are [Min] and [Max] at the zero value nil. *)
Definition Min_Value {T : Type} (t : Tree (option T)) : option T :=
  Min None t.
Definition Max_Value {T : Type} (t : Tree (option T)) : option T :=
  Max None t.

(** ** The integer values of the test suite *)

(** [type NumValue int] with its [Compare] method. *)
Definition NumValue : Type := Z.

Definition NumValue_Compare (n x : NumValue) : Z :=
  if x <? n then 1 else if n <? x then -1 else 0.

(** The tree holding [1..4], inserted in ascending order. *)
Definition chain4 : Tree NumValue :=
  run NumValue_Compare
    [CallInsert 1; CallInsert 2; CallInsert 3; CallInsert 4] empty.

(** The tree of the second example scenario: [5,3,8,3] inserted. *)
Definition dup4 : Tree NumValue :=
  run NumValue_Compare
    [CallInsert 5; CallInsert 3; CallInsert 8; CallInsert 3] empty.

(** ** The checks of the test suite *)

(** [func properlySorted(t *Node) bool]: every node against its two
    children. *)
Fixpoint properlySorted (t : Node NumValue) : bool :=
  match t with
  | nil => true
  | node x l r =>
    if negb (properlySorted l) || negb (properlySorted r) then false
    else if negb (is_nil l) &&
            match l with
            | nil => false
            | node xl _ _ => 0 <? NumValue_Compare xl x
            end
    then false
    else if negb (is_nil r) &&
            match r with
            | nil => false
            | node xr _ _ => NumValue_Compare xr x <? 0
            end
    then false
    else true
  end.

(** A Go [map[int]int]: the entries it holds, one per key.  Reading a
    missing key gives 0, writing a key replaces its entry or adds one.
    The order of the entries stands for the order in which [range]
    happens to walk the map. *)
Definition IntMap : Type := list (Z * Z).

Fixpoint map_get (k : Z) (m : IntMap) : Z :=
  match m with
  | [] => 0
  | (k', y) :: m' => if k' =? k then y else map_get k m'
  end.

Fixpoint map_set (k y : Z) (m : IntMap) : IntMap :=
  match m with
  | [] => [(k, y)]
  | (k', y') :: m' =>
    if k' =? k then (k, y) :: m' else (k', y') :: map_set k y m'
  end.

(** [func subtractNodeValues(n *Node, vals map[int]int)]: the map after
    the call. *)
Fixpoint subtractNodeValues (n : Node NumValue) (vals : IntMap) : IntMap :=
  match n with
  | nil => vals
  | node x l r =>
    let vals := map_set x (map_get x vals - 1) vals in
    let vals := subtractNodeValues l vals in
    subtractNodeValues r vals
  end.

(** [func containsValues(t *Tree, vals map[int]int) bool] *)
Definition containsValues (t : Tree NumValue) (vals : IntMap) : bool :=
  let subMap := fold_left (fun m e => map_set (fst e) (snd e) m) vals [] in
  let subMap := subtractNodeValues (Root t) subMap in
  forallb (fun e => snd e =? 0) subMap.

(** The bookkeeping of [TestInsertions]: [allValues[n]++] for every
    value inserted. *)
Definition count_values (xs : list NumValue) : IntMap :=
  fold_left (fun m n => map_set n (map_get n m + 1) m) xs [].

(** The bookkeeping of [TestMinMax]: [if i == 0 || n < min { min = n }]
    and [if i == 0 || n > max { max = n }], over the values after the
    first. *)
Definition running_min (x : NumValue) (xs : list NumValue) : NumValue :=
  fold_left (fun m n => if n <? m then n else m) xs x.
Definition running_max (x : NumValue) (xs : list NumValue) : NumValue :=
  fold_left (fun m n => if m <? n then n else m) xs x.

(** A map holds one entry per key. *)
Definition map_wf (m : IntMap) : Prop := NoDup (map fst m).

(** Number of elements of [xs] equal to [k]. *)
Definition count_Z (k : Z) (xs : list Z) : Z :=
  count_eq NumValue_Compare k xs.

(** ** Rendering as text *)

Module Text.

Import String Ascii.

(** Go strings are byte strings; [strings.Split(s, "\n")] and
    [strings.Join(lines, "\n")] are those of the Go standard library. *)
Definition newline : ascii := ascii_of_nat 10.

Fixpoint Split (s : string) : list string :=
  match s with
  | EmptyString => [EmptyString]
  | String c s' =>
    if Ascii.eqb c newline then EmptyString :: Split s'
    else
      match Split s' with
      | [] => [String c EmptyString]
      | line :: lines => String c line :: lines
      end
  end.

Fixpoint Join (lines : list string) : string :=
  match lines with
  | [] => EmptyString
  | line :: lines' =>
    match lines' with
    | [] => line
    | _ :: _ => append line (String newline (Join lines'))
    end
  end.

(** The loop [for i, line := range lines { lines[i] = "  " + line }]. *)
Definition indent_lines (lines : list string) : list string :=
  map (fun line => append "  "%string line) lines.

(** [func indentString(s string) string] *)
Definition indentString (s : string) : string :=
  Join (indent_lines (Split s)).

Section Rendering.

(** [show x] is what [fmt] prints for the value [x] under [%v]. *)
Context {T : Type} (show : T -> string).

(** [func (n *Node) String() string] *)
Fixpoint Node_String (n : Node T) : string :=
  match n with
  | nil => "nil"%string
  | node x l r =>
    append (show x)
      (String newline
         (append (indentString (Node_String l))
            (String newline (indentString (Node_String r)))))
  end.

(** [func (t *Tree) String() string] *)
Definition Tree_String (t : Tree T) : string := Node_String (Root t).

(** The lines of the rendering, read off the format: the value, then
    the two subtrees, each line of theirs pushed in by two spaces. *)
Fixpoint render (n : Node T) : list string :=
  match n with
  | nil => ["nil"%string]
  | node x l r =>
    show x :: indent_lines (render l) ++ indent_lines (render r)
  end.

End Rendering.

(** What [fmt] prints for a Go [bool] under [%v]. *)
Definition show_bool (b : bool) : string :=
  if b then "true"%string else "false"%string.

(** A text without line break. *)
Fixpoint one_line (s : string) : bool :=
  match s with
  | EmptyString => true
  | String c s' => negb (Ascii.eqb c newline) && one_line s'
  end.

End Text.

(** Strictly increasing / strictly decreasing sequences of values:
    each value compares greater (less) than the one before. *)
Definition increasing {T : Type} (Compare : T -> T -> Z) (xs : list T) : Prop :=
  Sorted (fun a b => 0 < Compare b a) xs.
Definition decreasing {T : Type} (Compare : T -> T -> Z) (xs : list T) : Prop :=
  Sorted (fun a b => Compare b a < 0) xs.


(** * Properties *)

Section Properties.

Context {T : Type} (Compare : T -> T -> Z).

Implicit Types (v : Key T) (n l r : Node T) (t : Tree T) (x y : T).

(** ** The splay primitive: structure *)

(** Splitting the guard of a double rotation. *)
Lemma guard_true (b : bool) n :
  b && negb (is_nil n) = true -> b = true /\ is_nil n = false.
Proof.
  destruct b, n; simpl; intros H; try discriminate H; auto.
Qed.

(** A slot is empty after [splay] exactly when it was empty before: the
    [nil] alternatives inside [splay] are dead code. *)
Lemma splay_is_nil v n : is_nil (splay v n) = is_nil n.
Proof.
  functional induction (splay v n); simpl; try reflexivity;
    match goal with
    | G : _ && negb (is_nil ?s) = true, E : splay v ?s = nil,
      IH : is_nil (splay v ?s) = _ |- _ =>
      apply guard_true in G; destruct G as [_ G];
      rewrite E, G in IH; discriminate IH
    end.
Qed.

Lemma splay_node v x l r :
  exists x' l' r', splay v (node x l r) = node x' l' r'.
Proof.
  pose proof (splay_is_nil v (node x l r)) as H.
  destruct (splay v (node x l r)) as [|x' l' r'] eqn:E; [discriminate H|].
  exists x', l', r'. reflexivity.
Qed.

Lemma splay_not_nil v n : is_nil n = false -> splay v n <> nil.
Proof.
  intros H E. pose proof (splay_is_nil v n) as H'.
  rewrite E, H in H'. discriminate H'.
Qed.

(** Closes the dead-code cases left by an induction over [splay]. *)
Ltac splay_dead :=
  match goal with
  | G : _ && negb (is_nil ?s) = true, E : splay ?v ?s = nil |- _ =>
    exfalso; apply guard_true in G; destruct G as [_ G];
    exact (splay_not_nil v s G E)
  end.

(** The rotations relink nodes and nothing else. *)
Lemma splay_inorder v n : inorder (splay v n) = inorder n.
Proof.
  functional induction (splay v n); try reflexivity; try splay_dead;
    simpl;
    match goal with
    | E : splay v ?s = node _ _ _, IH : inorder (splay v ?s) = _ |- _ =>
      rewrite E in IH; simpl in IH; rewrite <- IH
    | _ => idtac
    end;
    repeat (rewrite <- app_assoc; simpl); reflexivity.
Qed.

Lemma Len_length n : Len n = Z.of_nat (length (inorder n)).
Proof.
  induction n as [|x l IHl r IHr]; [reflexivity|].
  cbn [Len inorder]. rewrite length_app, IHl, IHr. cbn [length]. lia.
Qed.

Lemma splay_Len v n : Len (splay v n) = Len n.
Proof. now rewrite !Len_length, splay_inorder. Qed.

(** ** The splay primitive: where the search ends *)

Lemma search_end_nil v : search_end v nil = None.
Proof. reflexivity. Qed.

Lemma search_end_node v x l r :
  search_end v (node x l r) =
  Some (match (if v x <? 0 then search_end v l
               else if 0 <? v x then search_end v r
               else None) with
        | Some y => y
        | None => x
        end).
Proof.
  unfold search_end; cbn [search_path rev].
  destruct (v x <? 0); [|destruct (0 <? v x)];
    try (destruct (rev (search_path v _)); reflexivity).
  reflexivity.
Qed.

(** Turns the boolean tests of the code into facts on integers. *)
Ltac sign_facts :=
  repeat match goal with
  | H : _ && negb (is_nil _) = true |- _ =>
    apply guard_true in H; destruct H
  | H : _ && negb (is_nil ?s) = false |- _ =>
    apply andb_false_iff in H; destruct H as [H|H];
    [|destruct s; [clear H|discriminate H]]
  | H : (_ <? _) = true |- _ => apply Z.ltb_lt in H
  | H : (_ <? _) = false |- _ => apply Z.ltb_ge in H
  | H : (_ =? _) = true |- _ => apply Z.eqb_eq in H
  | H : (_ =? _) = false |- _ => apply Z.eqb_neq in H
  end.

(** Decides the tests of [search_end] from the facts at hand. *)
Ltac search_step :=
  rewrite search_end_node;
  repeat match goal with
  | |- context [?a <? ?b] =>
    let L := fresh in
    destruct (a <? b) eqn:L; sign_facts; try lia
  end.

(** The node [splay] leaves in the slot is the one the naive search
    ends on. *)
Lemma splay_root_search v n : root_value (splay v n) = search_end v n.
Proof.
  functional induction (splay v n); try splay_dead; try reflexivity;
    try match goal with
    | E : splay v ?s = node _ _ _, IH : root_value (splay v ?s) = _ |- _ =>
      rewrite E in IH; simpl in IH
    end;
    cbn [root_value]; sign_facts;
    repeat (search_step; try reflexivity);
    try (rewrite <- IHn0; reflexivity).
Qed.

(** ** Non-descending sequences *)

(** Exposes the comparisons behind [leq] to arithmetic. *)
Ltac unfold_leq := unfold leq in *.

Local Abbreviation leq := (leq Compare).
Local Abbreviation ascending := (ascending Compare).

Lemma ascending_cons x xs :
  ascending (x :: xs) <-> Forall (leq x) xs /\ ascending xs.
Proof.
  split.
  - intros H. apply StronglySorted_inv in H. tauto.
  - intros [H1 H2]. now constructor.
Qed.

Lemma ascending_app xs ys :
  ascending (xs ++ ys) <->
  ascending xs /\ ascending ys /\ Forall (fun a => Forall (leq a) ys) xs.
Proof.
  induction xs as [|a xs IH]; simpl.
  - split; [intros H|tauto]. repeat split; auto; constructor.
  - rewrite !ascending_cons, Forall_app, IH, Forall_cons_iff. tauto.
Qed.

(** What the ordering of the in-order sequence says at a node. *)
Lemma ascending_node x l r :
  ascending (inorder (node x l r)) <->
  ascending (inorder l) /\ ascending (inorder r) /\
  Forall (fun y => leq y x) (inorder l) /\
  Forall (leq x) (inorder r) /\
  Forall (fun a => Forall (leq a) (inorder r)) (inorder l).
Proof.
  cbn [inorder]. rewrite ascending_app, ascending_cons.
  split.
  - intros (Hl & (Hx & Hr) & Hlr).
    split; [exact Hl|]. split; [exact Hr|]. split; [|split; [exact Hx|]].
    + eapply Forall_impl; [|exact Hlr].
      intros a Ha. now apply Forall_inv in Ha.
    + eapply Forall_impl; [|exact Hlr].
      intros a Ha. now apply Forall_inv_tail in Ha.
  - intros (Hl & Hr & Hlx & Hxr & Hlr). repeat split; auto.
    rewrite Forall_forall in *. intros a Ha. constructor; auto.
Qed.

Lemma below_of_le v x xs :
  key_monotone Compare v ->
  Forall (fun y => leq y x) xs -> 0 < v x -> below v xs.
Proof.
  intros Hv H Hx. eapply Forall_impl; [|exact H].
  intros y Hy. now apply (Hv y x Hy).
Qed.

Lemma above_of_le v x xs :
  key_monotone Compare v -> Forall (leq x) xs -> v x < 0 -> above v xs.
Proof.
  intros Hv H Hx. eapply Forall_impl; [|exact H].
  intros y Hy. now apply (Hv x y Hy).
Qed.

Lemma splay_root_splits v n :
  key_monotone Compare v -> ascending (inorder n) ->
  root_splits v (splay v n).
Proof.
  intros Hv.
  functional induction (splay v n); intros Hn; try splay_dead;
    try exact I;
    repeat match goal with
    | H : ascending (inorder (node _ _ _)) |- _ =>
      apply ascending_node in H;
      destruct H as (? & ? & ? & ? & ?)
    end;
    try match goal with
    | E : splay v ?s = node _ _ _,
      IH : ascending (inorder ?s) -> root_splits v (splay v ?s) |- _ =>
      rewrite E in IH; specialize (IH ltac:(assumption));
      destruct IH as [? ?]
    end;
    sign_facts; unfold root_splits; cbn [inorder];
    (split; intros ?; try lia);
    unfold below, above in *;
    repeat first
      [ apply Forall_nil
      | apply Forall_app; split
      | apply Forall_cons; [assumption|]
      | solve [auto]
      | solve [eapply below_of_le; eauto]
      | solve [eapply above_of_le; eauto] ].
Qed.

(** ** Consequences of the caller's contract *)

Section Ordered.

Hypothesis Hord : total_order Compare.

Lemma Compare_sym_eq x y : Compare x y = 0 -> Compare y x = 0.
Proof.
  pose proof (Compare_antisym _ Hord x y).
  pose proof (Compare_antisym _ Hord y x). lia.
Qed.

Lemma Compare_refl x : Compare x x = 0.
Proof. pose proof (Compare_antisym _ Hord x x). lia. Qed.

Lemma leq_refl x : leq x x.
Proof. unfold_leq. rewrite Compare_refl. lia. Qed.

Lemma leq_of_eq x y : Compare x y = 0 -> leq x y /\ leq y x.
Proof.
  intros H. pose proof (Compare_sym_eq _ _ H).
  unfold_leq. lia.
Qed.

Lemma eq_of_leq x y : leq x y -> leq y x -> Compare x y = 0.
Proof.
  unfold_leq. pose proof (Compare_antisym _ Hord x y). lia.
Qed.

Lemma Compare_trans_eq x y z :
  Compare x y = 0 -> Compare y z = 0 -> Compare x z = 0.
Proof.
  intros Hxy Hyz.
  destruct (leq_of_eq _ _ Hxy), (leq_of_eq _ _ Hyz).
  apply eq_of_leq; eapply (Compare_trans _ Hord); eauto.
Qed.

(** Equal values are interchangeable on the right of a comparison. *)
Lemma Compare_eqb_congr x y z :
  Compare y z = 0 -> (Compare x y =? 0) = (Compare x z =? 0).
Proof.
  intros H.
  destruct (Compare x y =? 0) eqn:A, (Compare x z =? 0) eqn:B;
    sign_facts; try reflexivity; exfalso.
  - apply B. eapply Compare_trans_eq; eauto.
  - apply A. eapply Compare_trans_eq; eauto using Compare_sym_eq.
Qed.

(** A stored value used as a key is consistent with the order. *)
Lemma Compare_key_monotone x : key_monotone Compare (Compare x).
Proof.
  intros a b Hab. split; intros H.
  - destruct (Z.ltb_spec 0 (Compare x a)) as [|Hn]; [assumption|].
    pose proof (Compare_trans _ Hord x a b Hn Hab) as Hxb.
    unfold_leq. lia.
  - destruct (Z.ltb_spec (Compare x b) 0) as [|Hn]; [assumption|].
    assert (Hbx : leq b x).
    { unfold_leq.
      pose proof (Compare_antisym _ Hord x b). lia. }
    pose proof (Compare_trans _ Hord a b x Hab Hbx) as Hax.
    unfold_leq.
    pose proof (Compare_antisym _ Hord x a). lia.
Qed.

(** The node-level invariant and the ordering of the in-order sequence
    are the same thing. *)
Lemma bst_ascending n : bst Compare n <-> ascending (inorder n).
Proof.
  induction n as [|x l IHl r IHr]; cbn [bst].
  - split; [constructor|trivial].
  - rewrite ascending_node, IHl, IHr. split.
    + intros (Hl & Hr & Hlx & Hxr). repeat split; auto.
      rewrite Forall_forall in *. intros a Ha.
      rewrite Forall_forall. intros b Hb.
      eapply (Compare_trans _ Hord); eauto.
    + tauto.
Qed.

End Ordered.

(** Both sentinels are consistent with any order. *)
Lemma greatestValue_monotone : key_monotone Compare greatestValue.
Proof. intros x y _. unfold greatestValue. lia. Qed.

Lemma smallestValue_monotone : key_monotone Compare smallestValue.
Proof. intros x y _. unfold smallestValue. lia. Qed.

(** ** Insert and Delete, case by case *)

Lemma is_nil_false n : is_nil n = false -> n <> nil.
Proof. now destruct n. Qed.

Lemma Insert_spec_holds x t : Insert_spec Compare x t (Insert Compare x t).
Proof.
  unfold Insert. destruct (is_nil (Root t)) eqn:Hnil.
  - constructor. now destruct (Root t).
  - apply is_nil_false in Hnil.
    destruct (splay (Compare x) (Root t)) as [|y l r] eqn:E.
    + exfalso. destruct (Root t) as [|y l r]; [now apply Hnil|].
      destruct (splay_node (Compare x) y l r) as (? & ? & ? & E').
      rewrite E' in E. discriminate E.
    + cbv zeta.
      destruct (Compare x y <? 0) eqn:A;
        [|destruct (0 <? Compare x y) eqn:B]; sign_facts.
      * eapply Insert_less; eauto.
      * eapply Insert_greater; eauto.
      * eapply Insert_equal; eauto. lia.
Qed.

(** The node a splay toward the greatest sentinel brings up has no right
    child. *)
Lemma splay_greatest_no_right n :
  forall x l r, splay (@greatestValue T) n = node x l r -> r = nil.
Proof.
  functional induction (splay (@greatestValue T) n);
    intros a b c E; try splay_dead; try discriminate E;
    unfold greatestValue in *; sign_facts; try lia;
    try (injection E as <- <- <-); try reflexivity; eauto.
Qed.

Lemma Delete_spec_holds v t : Delete_spec v t (Delete v t).
Proof.
  unfold Delete. destruct (is_nil (Root t)) eqn:Hnil.
  - constructor. now destruct (Root t).
  - apply is_nil_false in Hnil.
    destruct (splay v (Root t)) as [|y l r] eqn:E.
    + exfalso. destruct (Root t) as [|y l r]; [now apply Hnil|].
      destruct (splay_node v y l r) as (? & ? & ? & E').
      rewrite E' in E. discriminate E.
    + destruct (v y =? 0) eqn:A; cbn [negb]; sign_facts.
      * destruct l as [|y1 l1 r1]; cbn [is_nil].
        { eapply Delete_no_left; eauto. }
        destruct (splay_node greatestValue y1 l1 r1) as (m & l' & r' & E').
        rewrite E'.
        pose proof (splay_greatest_no_right _ _ _ _ E'); subst r'.
        eapply Delete_join; eauto; [discriminate|].
        now rewrite <- (splay_inorder greatestValue), E'.
      * eapply Delete_miss; eauto.
Qed.

(** *** What [Insert] and [Delete] do to the in-order sequence *)

Lemma Insert_inorder x t :
  exists xs ys,
    inorder (Root t) = xs ++ ys /\
    inorder (Root (Insert Compare x t)) = xs ++ x :: ys.
Proof.
  destruct (Insert_spec_holds x t) as [Hnil|y l r _ E _|y l r _ E _|y l r _ E _];
    cbn [Root inorder].
  - exists [], []. now rewrite Hnil.
  - exists (inorder l), (y :: inorder r).
    now rewrite <- (splay_inorder (Compare x)), E.
  - exists (inorder l ++ [y]), (inorder r).
    rewrite <- (splay_inorder (Compare x)), E. cbn [inorder].
    now rewrite <- !app_assoc.
  - exists (inorder l), (y :: inorder r).
    now rewrite <- (splay_inorder (Compare x)), E.
Qed.

Lemma Delete_nil v t : Root t = nil -> Delete v t = t.
Proof. unfold Delete. intros ->. reflexivity. Qed.

Lemma Delete_at_miss v t x l r :
  splay v (Root t) = node x l r -> v x <> 0 ->
  Delete v t = mkTree (node x l r).
Proof.
  intros E Hx.
  destruct (Delete_spec_holds v t)
    as [Hnil|? ? ? _ E' _|? ? _ E' H|? ? ? ? ? _ E' H];
    try (rewrite E in E'; injection E' as ? ? ?; subst); try easy.
  rewrite Hnil in E. discriminate E.
Qed.

Lemma Delete_at_hit v t x l r :
  splay v (Root t) = node x l r -> v x = 0 ->
  inorder (Root (Delete v t)) = inorder l ++ inorder r.
Proof.
  intros E Hx.
  destruct (Delete_spec_holds v t)
    as [Hnil|? ? ? _ E' H|? ? _ E' _|? ? ? m l' _ E' _ _ _ Hm];
    try (rewrite E in E'; injection E' as ? ? ?; subst); try easy.
  - rewrite Hnil in E. discriminate E.
  - cbn [Root inorder]. now rewrite Hm, <- app_assoc.
Qed.

(** [Delete] takes at most one value out of the in-order sequence, and
    only one equal to the key. *)
Lemma Delete_inorder v t :
  inorder (Root (Delete v t)) = inorder (Root t) \/
  exists xs x ys,
    inorder (Root t) = xs ++ x :: ys /\ v x = 0 /\
    inorder (Root (Delete v t)) = xs ++ ys.
Proof.
  destruct (splay v (Root t)) as [|x l r] eqn:E.
  - left. rewrite Delete_nil; [reflexivity|].
    destruct (Root t) as [|y l r]; [reflexivity|].
    destruct (splay_node v y l r) as (? & ? & ? & E').
    rewrite E' in E. discriminate E.
  - destruct (Z.eq_dec (v x) 0) as [Hx|Hx].
    + right. exists (inorder l), x, (inorder r).
      rewrite <- (splay_inorder v), E.
      split; [reflexivity|]. split; [exact Hx|].
      exact (Delete_at_hit _ _ _ _ _ E Hx).
    + left. rewrite (Delete_at_miss _ _ _ _ _ E Hx).
      now rewrite <- (splay_inorder v (Root t)), E.
Qed.

(** On an ordered tree the splay finds a node equal to the key whenever
    there is one. *)
Lemma splay_finds v n y :
  key_monotone Compare v -> ascending (inorder n) ->
  In y (inorder n) -> v y = 0 ->
  exists x l r, splay v n = node x l r /\ v x = 0.
Proof.
  intros Hv Hn Hy Hy0.
  pose proof (splay_root_splits v n Hv Hn) as Hs.
  rewrite <- (splay_inorder v) in Hn, Hy.
  destruct (splay v n) as [|x l r]; [destruct Hy|].
  exists x, l, r. split; [reflexivity|].
  apply ascending_node in Hn. destruct Hn as (_ & _ & Hlx & Hxr & _).
  destruct Hs as [Hlt Hgt]. cbn [inorder] in Hy.
  unfold below, above in *. rewrite Forall_forall in *.
  apply in_app_or in Hy.
  destruct (Z.lt_total (v x) 0) as [H|[H|H]]; [|assumption|]; exfalso.
  - destruct Hy as [Hy|[<-|Hy]]; [|lia|].
    + specialize (Hlt H y Hy). lia.
    + pose proof (proj2 (Hv x y (Hxr y Hy)) H). lia.
  - destruct Hy as [Hy|[<-|Hy]]; [|lia|].
    + pose proof (proj1 (Hv y x (Hlx y Hy)) H). lia.
    + specialize (Hgt H y Hy). lia.
Qed.

(** ** The ordering invariant *)

Lemma ascending_insert xs ys x :
  ascending (xs ++ ys) ->
  Forall (fun a => leq a x) xs -> Forall (leq x) ys ->
  ascending (xs ++ x :: ys).
Proof.
  rewrite !ascending_app, ascending_cons.
  intros (Hxs & Hys & Hxy) Hl Hr. repeat split; auto.
  rewrite Forall_forall in *. intros a Ha. constructor; auto.
Qed.

Lemma ascending_remove xs ys x :
  ascending (xs ++ x :: ys) -> ascending (xs ++ ys).
Proof.
  rewrite !ascending_app, ascending_cons.
  intros (Hxs & (_ & Hys) & Hxy). repeat split; auto.
  eapply Forall_impl; [|exact Hxy].
  intros a Ha. now apply Forall_inv_tail in Ha.
Qed.

Section Invariants.

Hypothesis Hord : total_order Compare.

Lemma Forall_leq_left xs x y :
  Forall (fun a => leq a y) xs -> leq y x -> Forall (fun a => leq a x) xs.
Proof.
  intros H Hyx. eapply Forall_impl; [|exact H].
  intros a Ha. exact (Compare_trans _ Hord a y x Ha Hyx).
Qed.

Lemma Forall_leq_right ys x y :
  Forall (leq y) ys -> leq x y -> Forall (leq x) ys.
Proof.
  intros H Hxy. eapply Forall_impl; [|exact H].
  intros a Ha. exact (Compare_trans _ Hord x y a Hxy Ha).
Qed.

Lemma below_leq x xs : below (Compare x) xs -> Forall (fun a => leq a x) xs.
Proof.
  apply Forall_impl. intros a Ha. unfold_leq.
  pose proof (Compare_antisym _ Hord a x). lia.
Qed.

Lemma above_leq x xs : above (Compare x) xs -> Forall (leq x) xs.
Proof. apply Forall_impl. intros a Ha. unfold_leq. lia. Qed.

Lemma Insert_ascending x t :
  ascending (inorder (Root t)) ->
  ascending (inorder (Root (Insert Compare x t))).
Proof.
  intros Hn.
  pose proof (splay_root_splits _ _ (Compare_key_monotone Hord x) Hn) as Hs.
  rewrite <- (splay_inorder (Compare x)) in Hn.
  destruct (Insert_spec_holds x t)
    as [Hnil|y l r _ E Hc|y l r _ E Hc|y l r _ E Hc];
    cbn [Root]; try (rewrite E in Hs, Hn; destruct Hs as [Hlt Hgt]).
  - repeat constructor.
  - pose proof Hn as Hn'. apply ascending_node in Hn'.
    destruct Hn' as (_ & _ & Hly & Hyr & _).
    assert (Hxy : leq x y) by (unfold_leq; lia).
    apply (ascending_insert (inorder l) (y :: inorder r)); auto.
    + apply below_leq; auto.
    + constructor; [assumption|]. eapply Forall_leq_right; eauto.
  - pose proof Hn as Hn'. apply ascending_node in Hn'.
    destruct Hn' as (_ & _ & Hly & Hyr & _).
    assert (Hyx : leq y x).
    { unfold_leq. pose proof (Compare_antisym _ Hord y x). lia. }
    cbn [inorder] in *.
    apply (ascending_insert (inorder l ++ [y]) (inorder r)).
    + now rewrite <- app_assoc.
    + apply Forall_app. split; [eapply Forall_leq_left; eauto|].
      now constructor.
    + apply above_leq; auto.
  - pose proof Hn as Hn'. apply ascending_node in Hn'.
    destruct Hn' as (_ & _ & Hly & Hyr & _).
    destruct (leq_of_eq Hord _ _ Hc) as [Hxy Hyx].
    apply (ascending_insert (inorder l) (y :: inorder r)); auto.
    + eapply Forall_leq_left; eauto.
    + constructor; [assumption|]. eapply Forall_leq_right; eauto.
Qed.

Lemma Delete_ascending v t :
  ascending (inorder (Root t)) ->
  ascending (inorder (Root (Delete v t))).
Proof.
  intros Hn.
  destruct (Delete_inorder v t) as [->|(xs & x & ys & E & _ & ->)];
    [assumption|].
  rewrite E in Hn. eapply ascending_remove; eauto.
Qed.

Lemma step_ascending c t :
  ascending (inorder (Root t)) ->
  ascending (inorder (Root (step Compare c t))).
Proof.
  destruct c; cbn [step]; auto using Insert_ascending, Delete_ascending.
Qed.

Lemma run_ascending cs t :
  ascending (inorder (Root t)) ->
  ascending (inorder (Root (run Compare cs t))).
Proof.
  revert t. induction cs as [|c cs IH]; intros t Ht; [exact Ht|].
  cbn [run fold_left]. apply IH, step_ascending, Ht.
Qed.

(** ** Counting occurrences *)

Lemma count_eq_app x xs ys :
  count_eq Compare x (xs ++ ys) =
  count_eq Compare x xs + count_eq Compare x ys.
Proof.
  induction xs as [|a xs IH]; cbn [count_eq app]; [reflexivity|].
  rewrite IH. lia.
Qed.

Lemma count_eq_nonneg x xs : 0 <= count_eq Compare x xs.
Proof.
  induction xs as [|a xs IH]; cbn [count_eq]; [lia|].
  destruct (Compare x a =? 0); lia.
Qed.

Lemma count_eq_perm x xs ys :
  Permutation xs ys -> count_eq Compare x xs = count_eq Compare x ys.
Proof.
  induction 1; cbn [count_eq]; lia.
Qed.

Lemma present_iff x t :
  present Compare x t = true <->
  exists y, In y (inorder (Root t)) /\ Compare x y = 0.
Proof.
  unfold present. rewrite existsb_exists.
  split; intros (y & Hy & H); exists y; split; auto; sign_facts; auto.
  now apply Z.eqb_eq.
Qed.

Lemma count_eq_pos_iff x xs :
  0 < count_eq Compare x xs <-> exists y, In y xs /\ Compare x y = 0.
Proof.
  induction xs as [|a xs IH]; cbn [count_eq In].
  - split; [lia|intros (y & [] & _)].
  - pose proof (count_eq_nonneg x xs).
    destruct (Compare x a =? 0) eqn:A; sign_facts.
    + split; [exists a; auto|lia].
    + split.
      * intros H'. destruct (proj1 IH ltac:(lia)) as (y & Hy & Hy0).
        exists y; auto.
      * intros (y & [<-|Hy] & Hy0); [contradiction|].
        assert (0 < count_eq Compare x xs) by (apply IH; eauto). lia.
Qed.

Lemma present_occurrences x t :
  present Compare x t = true <-> 0 < occurrences Compare x t.
Proof.
  unfold occurrences. now rewrite present_iff, count_eq_pos_iff.
Qed.

Lemma occurrences_Insert x (v : T) t :
  occurrences Compare x (Insert Compare v t) =
  occurrences Compare x t + (if Compare x v =? 0 then 1 else 0).
Proof.
  unfold occurrences.
  destruct (Insert_inorder v t) as (xs & ys & -> & ->).
  rewrite !count_eq_app. cbn [count_eq]. lia.
Qed.

Lemma occurrences_Delete x (v : T) t :
  ascending (inorder (Root t)) ->
  occurrences Compare x (Delete (Compare v) t) =
  occurrences Compare x t -
  (if (Compare x v =? 0) && present Compare v t then 1 else 0).
Proof.
  intros Hn. destruct (present Compare v t) eqn:P.
  - apply present_iff in P. destruct P as (y & Hy & Hy0).
    destruct (splay_finds _ _ _ (Compare_key_monotone Hord v) Hn Hy Hy0)
      as (z & l & r & E & Hz).
    unfold occurrences. rewrite (Delete_at_hit _ _ _ _ _ E Hz).
    rewrite <- (splay_inorder (Compare v) (Root t)), E. cbn [inorder].
    rewrite !count_eq_app. cbn [count_eq].
    rewrite (Compare_eqb_congr Hord x z v (Compare_sym_eq Hord _ _ Hz)).
    rewrite andb_true_r. lia.
  - rewrite andb_false_r.
    destruct (Delete_inorder (Compare v) t)
      as [E|(xs & z & ys & E & Hz & _)].
    + unfold occurrences. rewrite E. lia.
    + exfalso. assert (present Compare v t = true); [|congruence].
      apply present_iff. exists z. split; [|exact Hz].
      rewrite E. apply in_elt.
Qed.

Lemma Tree_Len_count t : Tree_Len t = Z.of_nat (length (inorder (Root t))).
Proof. apply Len_length. Qed.

Lemma Tree_Len_Insert (v : T) t :
  Tree_Len (Insert Compare v t) = Tree_Len t + 1.
Proof.
  rewrite !Tree_Len_count.
  destruct (Insert_inorder v t) as (xs & ys & -> & ->).
  rewrite !length_app. cbn [length]. lia.
Qed.

Lemma Tree_Len_Delete (v : T) t :
  ascending (inorder (Root t)) ->
  Tree_Len (Delete (Compare v) t) =
  Tree_Len t - (if present Compare v t then 1 else 0).
Proof.
  intros Hn. rewrite !Tree_Len_count. destruct (present Compare v t) eqn:P.
  - apply present_iff in P. destruct P as (y & Hy & Hy0).
    destruct (splay_finds _ _ _ (Compare_key_monotone Hord v) Hn Hy Hy0)
      as (z & l & r & E & Hz).
    rewrite (Delete_at_hit _ _ _ _ _ E Hz).
    rewrite <- (splay_inorder (Compare v) (Root t)), E. cbn [inorder].
    rewrite !length_app. cbn [length]. lia.
  - destruct (Delete_inorder (Compare v) t)
      as [E|(xs & z & ys & E & Hz & _)].
    + rewrite E. lia.
    + exfalso. assert (present Compare v t = true); [|congruence].
      apply present_iff. exists z. split; [|exact Hz].
      rewrite E. apply in_elt.
Qed.

(** The two counting identities, from any ordered tree. *)
Lemma run_occurrences x cs t :
  ascending (inorder (Root t)) ->
  occurrences Compare x (run Compare cs t) =
  occurrences Compare x t + inserts_of Compare x cs
  - successful_deletes_of Compare x cs t.
Proof.
  revert t. induction cs as [|c cs IH]; intros t Hn;
    cbn [run fold_left inserts_of successful_deletes_of]; [lia|].
  change (fold_left _ cs ?u) with (run Compare cs u).
  rewrite (IH _ (step_ascending c t Hn)).
  destruct c; cbn [step];
    rewrite ?occurrences_Insert, ?occurrences_Delete by assumption; lia.
Qed.

Lemma run_Tree_Len cs t :
  ascending (inorder (Root t)) ->
  Tree_Len (run Compare cs t) =
  Tree_Len t + inserts cs - successful_deletes Compare cs t.
Proof.
  revert t. induction cs as [|c cs IH]; intros t Hn;
    cbn [run fold_left inserts successful_deletes]; [lia|].
  change (fold_left _ cs ?u) with (run Compare cs u).
  rewrite (IH _ (step_ascending c t Hn)).
  destruct c; cbn [step];
    rewrite ?Tree_Len_Insert, ?Tree_Len_Delete by assumption; lia.
Qed.

(** ** Emptying a tree *)

Lemma run_app cs1 cs2 t :
  run Compare (cs1 ++ cs2) t = run Compare cs2 (run Compare cs1 t).
Proof. apply fold_left_app. Qed.

Lemma inserts_of_map x (xs : list T) :
  inserts_of Compare x (map (@CallInsert T) xs) = count_eq Compare x xs.
Proof.
  induction xs as [|a xs IH]; cbn [map inserts_of count_eq]; [reflexivity|].
  now rewrite IH.
Qed.

Lemma successful_deletes_of_inserts x (xs : list T) t :
  successful_deletes_of Compare x (map (@CallInsert T) xs) t = 0.
Proof.
  revert t. induction xs as [|a xs IH]; intros t;
    cbn [map successful_deletes_of]; [reflexivity|].
  now rewrite IH.
Qed.

Lemma no_occurrences_nil t :
  (forall x, occurrences Compare x t = 0) -> t = empty.
Proof.
  intros H. destruct t as [[|x l r]]; [reflexivity|exfalso].
  assert (0 < occurrences Compare x (mkTree (node x l r))); [|rewrite H in *; lia].
  apply present_occurrences, present_iff. exists x. split.
  - cbn [Root inorder]. apply in_elt.
  - apply (Compare_refl Hord).
Qed.

(** Deleting, in any order, values that match the content of an ordered
    tree one for one empties it. *)
Lemma delete_all (ys : list T) : forall t,
  ascending (inorder (Root t)) ->
  (forall x, occurrences Compare x t = count_eq Compare x ys) ->
  run Compare (map (@CallDelete T) ys) t = empty.
Proof.
  induction ys as [|y ys IH]; intros t Hn Hc; cbn [map run fold_left].
  - now apply no_occurrences_nil.
  - change (fold_left _ ?cs ?u) with (run Compare cs u). cbn [step].
    assert (P : present Compare y t = true).
    { apply present_occurrences. rewrite Hc. cbn [count_eq].
      rewrite (Compare_refl Hord), Z.eqb_refl.
      pose proof (count_eq_nonneg y ys). lia. }
    apply IH; [now apply Delete_ascending|].
    intros x. rewrite occurrences_Delete by assumption.
    rewrite P, andb_true_r, Hc. cbn [count_eq]. lia.
Qed.

(** ** Min and Max *)

Lemma walk_left_first x l tl :
  exists rest, inorder l ++ x :: tl = walk_left x l :: rest.
Proof.
  revert x tl. induction l as [|y l IHl r _]; intros x tl; cbn.
  - now exists tl.
  - rewrite <- app_assoc. cbn. apply IHl.
Qed.

Lemma walk_right_last x r pre :
  exists front, pre ++ x :: inorder r = front ++ [walk_right x r].
Proof.
  revert x pre. induction r as [|y l _ r IHr]; intros x pre; cbn.
  - now exists pre.
  - destruct (IHr y ((pre ++ x :: inorder l))) as (front & E).
    exists front. rewrite <- E, <- app_assoc. reflexivity.
Qed.

Lemma Min_iface_least t m :
  ascending (inorder (Root t)) -> Min_iface t = Some m ->
  In m (inorder (Root t)) /\ Forall (leq m) (inorder (Root t)).
Proof.
  unfold Min_iface. destruct (Root t) as [|x l r]; [discriminate|].
  intros Hn [= <-]. cbn [inorder] in *.
  destruct (walk_left_first x l (inorder r)) as (rest & E).
  rewrite E in *. split; [now left|].
  apply ascending_cons in Hn. constructor; [apply (leq_refl Hord)|tauto].
Qed.

Lemma Max_iface_greatest t m :
  ascending (inorder (Root t)) -> Max_iface t = Some m ->
  In m (inorder (Root t)) /\ Forall (fun y => leq y m) (inorder (Root t)).
Proof.
  unfold Max_iface. destruct (Root t) as [|x l r]; [discriminate|].
  intros Hn [= <-]. cbn [inorder] in *.
  destruct (walk_right_last x r (inorder l)) as (front & E).
  rewrite E in *. split; [apply in_elt|].
  apply ascending_app in Hn. destruct Hn as (_ & _ & Hn).
  apply Forall_app. split.
  - eapply Forall_impl; [|exact Hn]. intros a Ha. now apply Forall_inv in Ha.
  - constructor; [apply (leq_refl Hord)|constructor].
Qed.

End Invariants.

(** ** Iteration *)

Section IterationFacts.

Context {S : Type} (f : T -> S -> bool * S).

Lemma visit_seq_app xs ys (w : S * list T) :
  visit_seq f (xs ++ ys) w =
  (let '(ok, w1) := visit_seq f xs w in
   if ok then visit_seq f ys w1 else (false, w1)).
Proof.
  revert w. induction xs as [|x xs IH]; intros w; cbn [visit_seq app].
  - reflexivity.
  - destruct (call_visit f x w) as [[] w1]; [apply IH|reflexivity].
Qed.

(** A pass over a tree is a stoppable pass over its in-order sequence. *)
Lemma Node_Iterate_visit_seq n (w : S * list T) :
  Node_Iterate f n w = visit_seq f (inorder n) w.
Proof.
  revert w. induction n as [|x l IHl r IHr]; intros w; [reflexivity|].
  cbn [Node_Iterate inorder]. rewrite visit_seq_app. cbn [visit_seq].
  replace (if negb (is_nil l) then Node_Iterate f l w else (true, w))
    with (Node_Iterate f l w) by (destruct l; reflexivity).
  rewrite IHl. destruct (visit_seq f (inorder l) w) as [[] w1];
    cbn [negb]; [|reflexivity].
  destruct (call_visit f x w1) as [[] w2]; cbn [negb]; [|reflexivity].
  rewrite <- IHr. destruct r; reflexivity.
Qed.

(** What a stoppable pass logs: a prefix of the sequence, all of it
    when the pass was not stopped, and otherwise ending on the value on
    which [f] returned false. *)
Lemma visit_seq_log xs (w : S * list T) :
  exists visited rest,
    xs = visited ++ rest /\
    snd (snd (visit_seq f xs w)) = snd w ++ visited /\
    (fst (visit_seq f xs w) = true -> rest = []) /\
    (fst (visit_seq f xs w) = false ->
     exists pre x s, visited = pre ++ [x] /\
       f x s = (false, fst (snd (visit_seq f xs w)))).
Proof.
  revert w. induction xs as [|x xs IH]; intros w; cbn [visit_seq].
  - exists [], []. cbn. rewrite app_nil_r. repeat split; auto; discriminate.
  - unfold call_visit at 1 2 3 4.
    destruct (f x (fst w)) as [[] s'] eqn:E.
    + destruct (IH (s', snd w ++ [x])) as (vis & rest & -> & Hlog & Ht & Hf).
      exists (x :: vis), rest. cbn [snd fst] in *.
      rewrite Hlog, <- app_assoc. repeat split; auto.
      intros Hstop. destruct (Hf Hstop) as (pre & y & s & -> & Ey).
      exists (x :: pre), y, s. split; [reflexivity|exact Ey].
    + exists [x], xs. cbn. repeat split; auto; try discriminate.
      intros _. exists [], x, (fst w). split; [reflexivity|exact E].
Qed.

End IterationFacts.

(** ** The search path *)

Lemma search_end_in v n x : search_end v n = Some x -> In x (search_path v n).
Proof.
  unfold search_end. intros H. apply in_rev.
  destruct (rev (search_path v n)) as [|y p]; [discriminate H|].
  injection H as ->. now left.
Qed.

(** The naive search stops on the first equal value it meets. *)
Lemma search_path_hit v n y :
  In y (search_path v n) -> v y = 0 ->
  exists x, search_end v n = Some x /\ v x = 0.
Proof.
  induction n as [|x l IHl r IHr]; cbn [search_path]; [intros []|].
  intros [<-|Hy] Hy0; rewrite search_end_node.
  - exists x. split; [|exact Hy0].
    replace (v x <? 0) with false by (symmetry; apply Z.ltb_ge; lia).
    replace (0 <? v x) with false by (symmetry; apply Z.ltb_ge; lia).
    reflexivity.
  - destruct (v x <? 0); [|destruct (0 <? v x)]; [| |destruct Hy].
    + destruct (IHl Hy Hy0) as (z & -> & Hz). now exists z.
    + destruct (IHr Hy Hy0) as (z & -> & Hz). now exists z.
Qed.

(** * Properties of the specification *)

(** C1. After any sequence of calls on an initially empty tree the
    in-order sequence of the tree is non-descending under [Compare], and
    every node's left subtree holds only values at most the node's value
    and its right subtree only values at least it. *)
Theorem C1_ordering_invariant
    (Hord : total_order Compare) (cs : list (call T)) :
  ascending (inorder (Root (run Compare cs empty))) /\
  bst Compare (Root (run Compare cs empty)).
Proof.
  assert (H : ascending (inorder (Root (run Compare cs empty)))).
  { apply (run_ascending Hord). constructor. }
  split; [exact H|]. now apply (bst_ascending Hord).
Qed.

(** C2. After any sequence of calls on an initially empty tree, the
    number of nodes equal to [x] is the number of [Insert] calls with a
    value equal to [x] minus the number of successful [Delete] calls
    with such a value, a [Delete] being successful exactly when an equal
    node was present at the time; and [Len()] is the number of [Insert]
    calls minus the number of successful [Delete] calls. *)
Theorem C2_multiset_cardinality
    (Hord : total_order Compare) (cs : list (call T)) (x : T) :
  occurrences Compare x (run Compare cs empty) =
    inserts_of Compare x cs - successful_deletes_of Compare x cs empty /\
  Tree_Len (run Compare cs empty) =
    inserts cs - successful_deletes Compare cs empty.
Proof.
  assert (H : ascending (inorder (@Root T empty))) by constructor.
  split.
  - rewrite (run_occurrences Hord x cs empty H). reflexivity.
  - rewrite (run_Tree_Len Hord cs empty H). reflexivity.
Qed.

(** C3 (amended). Deleting a value no node is equal to leaves the tree
    splayed toward that value: [Len()] and the in-order sequence are
    unchanged.  Nothing is said of [Height()]. *)
Theorem C3_delete_absent (a : T) t :
  present Compare a t = false ->
  Delete (Compare a) t = mkTree (splay (Compare a) (Root t)) /\
  Tree_Len (Delete (Compare a) t) = Tree_Len t /\
  inorder (Root (Delete (Compare a) t)) = inorder (Root t).
Proof.
  intros P.
  assert (E : Delete (Compare a) t = mkTree (splay (Compare a) (Root t))).
  { destruct (splay (Compare a) (Root t)) as [|x l r] eqn:E.
    - destruct t as [[|y l r]]; [reflexivity|].
      destruct (splay_node (Compare a) y l r) as (? & ? & ? & E').
      cbn [Root] in E. rewrite E' in E. discriminate E.
    - apply Delete_at_miss; [exact E|]. intros Hx.
      assert (present Compare a t = true); [|congruence].
      apply present_iff. exists x. split; [|exact Hx].
      rewrite <- (splay_inorder (Compare a)), E. apply in_elt. }
  rewrite E. unfold Tree_Len. cbn [Root].
  now rewrite splay_Len, splay_inorder.
Qed.

(** C4. [splay] on an empty slot leaves it empty.  On a non-empty slot
    it leaves there the node the naive search for the key ends on, a
    node of the search path; if a node equal to the key lies on that
    path, the new root is equal to the key.  When the subtree is ordered
    and the key consistent with the order, no stored value lies between
    the key and the new root: every value left of a root greater than
    the key is below the key, and symmetrically. *)
Theorem C4_splay_reaches_search_end v n :
  splay v nil = nil /\
  root_value (splay v n) = search_end v n /\
  (n <> nil ->
   exists x, root_value (splay v n) = Some x /\ In x (search_path v n)) /\
  (forall y, In y (search_path v n) -> v y = 0 ->
   exists x, root_value (splay v n) = Some x /\ v x = 0) /\
  (key_monotone Compare v -> ascending (inorder n) ->
   root_splits v (splay v n)).
Proof.
  split; [reflexivity|]. split; [apply splay_root_search|].
  rewrite splay_root_search. repeat split.
  - intros Hn. destruct n as [|x l r]; [now destruct Hn|].
    rewrite search_end_node. eexists. split; [reflexivity|].
    apply search_end_in, search_end_node.
  - apply search_path_hit.
  - apply splay_root_splits.
Qed.

(** C5. [Delete(v)] follows the four cases of its description: nothing
    on an empty tree; nothing beyond the splay when the splayed root
    differs from [v] (the tree is left as splayed, with its in-order
    sequence and length unchanged); the root's right child when the root matches and has no
    left child; otherwise the node the sentinel splay brings to the top
    of the left subtree, which has no right child, with the old root's
    right subtree attached there.  It removes at most one value from
    the in-order sequence, one equal to [v]; and on an ordered tree the
    node brought up by the sentinel splay is the maximum of the left
    subtree. *)
Theorem C5_Delete_cases (a : T) t :
  Delete_spec (Compare a) t (Delete (Compare a) t) /\
  (Root t = nil -> Delete (Compare a) t = t) /\
  (forall x l r,
     splay (Compare a) (Root t) = node x l r -> Compare a x <> 0 ->
     Delete (Compare a) t = mkTree (node x l r) /\
     inorder (Root (Delete (Compare a) t)) = inorder (Root t) /\
     Tree_Len (Delete (Compare a) t) = Tree_Len t) /\
  (inorder (Root (Delete (Compare a) t)) = inorder (Root t) \/
   exists xs x ys,
     inorder (Root t) = xs ++ x :: ys /\ Compare a x = 0 /\
     inorder (Root (Delete (Compare a) t)) = xs ++ ys) /\
  (total_order Compare -> ascending (inorder (Root t)) ->
   forall x l r m l',
     splay (Compare a) (Root t) = node x l r ->
     splay greatestValue l = node m l' nil ->
     In m (inorder l) /\ Forall (fun y => leq y m) (inorder l)).
Proof.
  split; [apply Delete_spec_holds|]. split; [apply Delete_nil|].
  split.
  { intros x l r E Hx. rewrite (Delete_at_miss _ _ _ _ _ E Hx).
    unfold Tree_Len. cbn [Root]. rewrite <- E.
    now rewrite splay_inorder, splay_Len. }
  split; [apply Delete_inorder|].
  intros Hord Hn x l r m l' E Em.
  rewrite <- (splay_inorder (Compare a)), E in Hn.
  apply ascending_node in Hn. destruct Hn as (Hl & _).
  rewrite <- (splay_inorder greatestValue l), Em in *.
  cbn [inorder] in *. split; [apply in_elt|].
  apply ascending_app in Hl. destruct Hl as (_ & _ & Hl).
  apply Forall_app. split.
  - eapply Forall_impl; [|exact Hl]. intros y Hy. now apply Forall_inv in Hy.
  - constructor; [apply (leq_refl Hord)|constructor].
Qed.

(** C6. [Insert(v)] always adds one node: on an empty tree [v] becomes
    the sole root; otherwise, after the splay toward [v], a new root
    holding [v] takes the old root's left subtree and the old root,
    its left cleared, when [v] is less than or equal to the old root,
    and the mirror arrangement when [v] is greater.  The in-order
    sequence gains exactly [v], and a duplicate of the splayed root
    lands immediately before it. *)
Theorem C6_Insert_cases (a : T) t :
  Insert_spec Compare a t (Insert Compare a t) /\
  Tree_Len (Insert Compare a t) = Tree_Len t + 1 /\
  (exists xs ys,
     inorder (Root t) = xs ++ ys /\
     inorder (Root (Insert Compare a t)) = xs ++ a :: ys) /\
  (forall x l r,
     Root t <> nil -> splay (Compare a) (Root t) = node x l r ->
     Compare a x = 0 ->
     inorder (Root t) = inorder l ++ x :: inorder r /\
     inorder (Root (Insert Compare a t)) = inorder l ++ a :: x :: inorder r).
Proof.
  split; [apply Insert_spec_holds|]. split; [apply Tree_Len_Insert|].
  split; [apply Insert_inorder|].
  intros x l r Hnil E Hx. split.
  - now rewrite <- (splay_inorder (Compare a)), E.
  - unfold Insert. destruct (Root t) as [|y l0 r0]; [now destruct Hnil|].
    cbn [is_nil]. rewrite E. cbv zeta. rewrite Hx. reflexivity.
Qed.


(** C8. Inserting [n] values into an empty tree and then deleting the
    same values, in any order, leaves the empty tree: [Len()] and
    [Height()] are 0. *)
Theorem C8_insert_then_delete_all
    (Hord : total_order Compare) (xs ys : list T) :
  Permutation xs ys ->
  let t := run Compare (map (@CallInsert T) xs ++ map (@CallDelete T) ys)
             empty in
  t = empty /\ Tree_Len t = 0 /\ Height t = 0.
Proof.
  intros Hp t.
  assert (E : t = empty).
  { unfold t. rewrite run_app.
    assert (H : ascending (inorder (@Root T empty))) by constructor.
    apply (delete_all Hord).
    - now apply (run_ascending Hord).
    - intros x. rewrite (run_occurrences Hord x _ empty H).
      rewrite inserts_of_map, successful_deletes_of_inserts.
      rewrite (count_eq_perm x xs ys Hp). cbn. lia. }
  rewrite E. repeat split.
Qed.

(** C9. [Iterate(f)] calls [f] on the stored values in in-order
    sequence, as a stoppable pass over that sequence does: the values
    visited are a prefix of it, each taken once; all of it when [f]
    never returned false; and otherwise the pass ends on the value on
    which [f] returned false.  In a tree reached from the empty one the
    values visited are non-descending under [Compare]. *)
Theorem C9_Iterate_in_order
    {S : Type} (f : T -> S -> bool * S) t (w : S * list T) :
  Node_Iterate f (Root t) w = visit_seq f (inorder (Root t)) w /\
  Iterate f t w = snd (visit_seq f (inorder (Root t)) w) /\
  exists visited rest,
    inorder (Root t) = visited ++ rest /\
    snd (Iterate f t w) = snd w ++ visited /\
    (fst (Node_Iterate f (Root t) w) = true -> rest = []) /\
    (fst (Node_Iterate f (Root t) w) = false ->
     exists pre x s, visited = pre ++ [x] /\
       f x s = (false, fst (Iterate f t w))) /\
    (total_order Compare ->
     forall cs, t = run Compare cs empty -> ascending visited).
Proof.
  unfold Iterate. rewrite Node_Iterate_visit_seq.
  split; [reflexivity|]. split; [reflexivity|].
  destruct (visit_seq_log f (inorder (Root t)) w)
    as (visited & rest & E & Hlog & Ht & Hf).
  exists visited, rest. repeat split; auto.
  intros Hord cs ->.
  pose proof (run_ascending Hord cs empty) as Hn.
  rewrite E in Hn. apply ascending_app in Hn; [tauto|constructor].
Qed.

(** C10. [splay] preserves the in-order sequence of the subtree, for
    every key, the sentinels included: the same values, with the same
    multiplicities, in the same order.  [Len()] is therefore unchanged
    as well. *)
Theorem C10_splay_preserves_inorder v n :
  inorder (splay v n) = inorder n /\
  Len (splay v n) = Len n /\
  inorder (splay greatestValue n) = inorder n /\
  forall x, count_eq Compare x (inorder (splay v n)) =
            count_eq Compare x (inorder n).
Proof.
  repeat split; try apply splay_inorder; try apply splay_Len.
  intros x. now rewrite splay_inorder.
Qed.

End Properties.

(** * Instances on the integer values of the test suite *)

Lemma NumValue_total_order : total_order NumValue_Compare.
Proof.
  split; unfold leq, NumValue_Compare.
  - intros x y. destruct (Z.ltb_spec y x), (Z.ltb_spec x y); lia.
  - intros x y z.
    destruct (Z.ltb_spec y x), (Z.ltb_spec x y), (Z.ltb_spec z y),
      (Z.ltb_spec y z), (Z.ltb_spec z x), (Z.ltb_spec x z); lia.
Qed.

(** The example scenarios of the specification. *)
Example scenario_leftmost_deletion :
  let t := run NumValue_Compare
             [CallInsert 87; CallInsert 800; CallInsert 900; CallDelete 87]
             empty in
  inorder (Root t) = [800; 900] /\ Tree_Len t = 2.
Proof. split; reflexivity. Qed.

Example scenario_duplicates :
  inorder (Root dup4) = [3; 3; 5; 8] /\ Tree_Len dup4 = 4.
Proof. split; reflexivity. Qed.

Example scenario_delete_on_empty :
  let t := run NumValue_Compare [CallDelete 7] empty in
  Tree_Len t = 0 /\ Height t = 0.
Proof. split; reflexivity. Qed.

(** C1 on the tree of the second example scenario. *)
Lemma C1_witness :
  ascending NumValue_Compare (inorder (Root dup4)) /\
  bst NumValue_Compare (Root dup4).
Proof.
  exact (C1_ordering_invariant NumValue_Compare NumValue_total_order
           [CallInsert 5; CallInsert 3; CallInsert 8; CallInsert 3]).
Defined.

(** C2 on the first example scenario: insert 87, 800, 900, delete 87,
    counting the nodes equal to 87. *)
Lemma C2_witness :
  let cs := [CallInsert 87; CallInsert 800; CallInsert 900; CallDelete 87] in
  occurrences NumValue_Compare 87 (run NumValue_Compare cs empty) =
    inserts_of NumValue_Compare 87 cs
    - successful_deletes_of NumValue_Compare 87 cs empty /\
  Tree_Len (run NumValue_Compare cs empty) =
    inserts cs - successful_deletes NumValue_Compare cs empty.
Proof.
  exact (C2_multiset_cardinality NumValue_Compare NumValue_total_order
           [CallInsert 87; CallInsert 800; CallInsert 900; CallDelete 87] 87).
Defined.

(** C3 (amended) on the chain [1..4] and the absent value 0. *)
Lemma C3_witness :
  Delete (NumValue_Compare 0) chain4 =
    mkTree (splay (NumValue_Compare 0) (Root chain4)) /\
  Tree_Len (Delete (NumValue_Compare 0) chain4) = Tree_Len chain4 /\
  inorder (Root (Delete (NumValue_Compare 0) chain4)) = inorder (Root chain4).
Proof.
  apply (C3_delete_absent NumValue_Compare 0 chain4). reflexivity.
Defined.

(** C3 as stated fails: 0 is absent from the chain [1..4], yet deleting
    it changes the height from 4 to 3. *)
Lemma C3_counterexample :
  present NumValue_Compare 0 chain4 = false /\
  Height chain4 = 4 /\
  Height (Delete (NumValue_Compare 0) chain4) = 3 /\
  Height (Delete (NumValue_Compare 0) chain4) <> Height chain4.
Proof. repeat split. discriminate. Qed.



(** C8 on the values [5,3,8,3], deleted in reverse order of insertion. *)
Lemma C8_witness :
  let t := run NumValue_Compare
             (map (@CallInsert NumValue) [5; 3; 8; 3] ++
              map (@CallDelete NumValue) [3; 8; 3; 5]) empty in
  t = empty /\ Tree_Len t = 0 /\ Height t = 0.
Proof.
  apply (C8_insert_then_delete_all NumValue_Compare NumValue_total_order
           [5; 3; 8; 3] [3; 8; 3; 5]).
  exact (Permutation_rev [5; 3; 8; 3]).
Defined.


(** * Further properties of the code *)

Section Coverage.

Context {T : Type} (Compare : T -> T -> Z).

Implicit Types (v : Key T) (n l r : Node T) (t : Tree T) (x y a : T).

(** ** Sentinel splays *)

(** The mirror of [splay_greatest_no_right]. *)
Lemma splay_smallest_no_left n :
  forall x l r, splay (@smallestValue T) n = node x l r -> l = nil.
Proof.
  functional induction (splay (@smallestValue T) n);
    intros a b c E; try discriminate E;
    try (exfalso;
         match goal with
         | G : _ && negb (is_nil ?s) = true, D : splay ?k ?s = nil |- _ =>
           apply guard_true in G; destruct G as [_ G];
           exact (splay_not_nil k s G D)
         end);
    repeat match goal with
    | H : _ && negb (is_nil _) = true |- _ =>
      apply guard_true in H; destruct H
    | H : _ && negb (is_nil ?s) = false |- _ =>
      apply andb_false_iff in H; destruct H as [H|H];
      [|destruct s; [clear H|discriminate H]]
    end;
    unfold smallestValue in *; try discriminate;
    try (injection E as <- <- <-); try reflexivity; eauto.
Qed.

Lemma Max_iface_last x l r :
  exists front,
    inorder (node x l r) = front ++ [walk_right x r].
Proof. apply walk_right_last. Qed.

Lemma Min_iface_first x l r :
  exists rest,
    inorder (node x l r) = walk_left x l :: rest.
Proof. apply walk_left_first. Qed.

(** X1. Splaying a non-empty subtree toward the greatest sentinel brings
    to its root the value [Max()] returns, the last of the in-order
    sequence, and leaves that root without right child. *)
Theorem splay_greatest_brings_Max x0 l0 r0 :
  let n := node x0 l0 r0 in
  exists x l,
    splay greatestValue n = node x l nil /\
    Max_iface (mkTree n) = Some x /\
    inorder n = inorder l ++ [x].
Proof.
  intros n. destruct (splay_node greatestValue x0 l0 r0) as (x & l & r & E).
  pose proof (splay_greatest_no_right _ _ _ _ E); subst r.
  assert (Hin : inorder n = inorder l ++ [x]).
  { unfold n. now rewrite <- (splay_inorder greatestValue), E. }
  exists x, l. repeat split; auto.
  unfold Max_iface. cbn [Root n]. f_equal.
  destruct (Max_iface_last x0 l0 r0) as (front & E').
  fold n in E'. rewrite Hin in E'.
  apply app_inj_tail in E'. symmetry. tauto.
Qed.

(** X2. Splaying a non-empty subtree toward the smallest sentinel brings
    to its root the value [Min()] returns, the first of the in-order
    sequence, and leaves that root without left child. *)
Theorem splay_smallest_brings_Min x0 l0 r0 :
  let n := node x0 l0 r0 in
  exists x r,
    splay smallestValue n = node x nil r /\
    Min_iface (mkTree n) = Some x /\
    inorder n = x :: inorder r.
Proof.
  intros n. destruct (splay_node smallestValue x0 l0 r0) as (x & l & r & E).
  pose proof (splay_smallest_no_left _ _ _ _ E); subst l.
  assert (Hin : inorder n = x :: inorder r).
  { unfold n. now rewrite <- (splay_inorder smallestValue), E. }
  exists x, r. repeat split; auto.
  unfold Min_iface. cbn [Root n]. f_equal.
  destruct (Min_iface_first x0 l0 r0) as (rest & E').
  fold n in E'. rewrite Hin in E'. now injection E'.
Qed.

(** ** Finding a stored value *)

(** A splay toward a key the root compares equal to changes nothing. *)
Lemma splay_at_root v x l r :
  v x = 0 -> splay v (node x l r) = node x l r.
Proof. intros H. cbn [splay]. cbv zeta. now rewrite H. Qed.

(** X3. On an ordered tree that holds a value equal to [a], the splay
    toward [a] sets the root to a node with that value, and a second
    splay toward [a] leaves the tree as the first one left it. *)
Theorem splay_finds_stored_value (Hord : total_order Compare) a n y :
  ascending Compare (inorder n) ->
  In y (inorder n) -> Compare a y = 0 ->
  exists x l r,
    splay (Compare a) n = node x l r /\ Compare a x = 0 /\
    splay (Compare a) (splay (Compare a) n) = splay (Compare a) n.
Proof.
  intros Hn Hy Hy0.
  destruct (splay_finds Compare _ _ _ (Compare_key_monotone _ Hord a) Hn Hy Hy0)
    as (x & l & r & E & Hx).
  exists x, l, r. rewrite E. repeat split; auto using splay_at_root.
Qed.

(** ** Height and length *)

Lemma height_nonneg n : 0 <= height n.
Proof.
  induction n as [|x l IHl r IHr]; cbn [height]; [lia|]. cbv zeta.
  destruct (height r <? height l); lia.
Qed.

Lemma Len_nonneg n : 0 <= Len n.
Proof. induction n as [|x l IHl r IHr]; cbn [Len]; lia. Qed.

(** X4. The height is the length of the longest branch: it is 0 exactly
    on the empty subtree, never exceeds the number of nodes, and a
    subtree of height [h] holds fewer than [2^h] nodes. *)
Theorem height_Len_bounds n :
  0 <= height n <= Len n /\
  Len n < 2 ^ height n /\
  (height n = 0 <-> n = nil) /\
  (Len n = 0 <-> n = nil).
Proof.
  induction n as [|x l IHl r IHr].
  - cbn. repeat split; auto; lia.
  - pose proof (height_nonneg l). pose proof (height_nonneg r).
    pose proof (Len_nonneg l). pose proof (Len_nonneg r).
    destruct IHl as (Hl1 & Hl2 & _). destruct IHr as (Hr1 & Hr2 & _).
    cbn [height Len]. cbv zeta.
    destruct (Z.ltb_spec (height r) (height l)) as [Hlt|Hge].
    + assert (2 ^ height r <= 2 ^ height l)
        by (apply Z.pow_le_mono_r; lia).
      rewrite Z.pow_add_r, Z.pow_1_r by lia.
      repeat split; try lia; discriminate.
    + assert (2 ^ height l <= 2 ^ height r)
        by (apply Z.pow_le_mono_r; lia).
      rewrite Z.pow_add_r, Z.pow_1_r by lia.
      repeat split; try lia; discriminate.
Qed.

(** ** Insert followed by Delete *)

Lemma Insert_root a t : root_value (Root (Insert Compare a t)) = Some a.
Proof.
  destruct (Insert_spec_holds Compare a t); reflexivity.
Qed.

Lemma Delete_at_root a l r :
  Compare a a = 0 ->
  inorder (Root (Delete (Compare a) (mkTree (node a l r)))) =
  inorder l ++ inorder r.
Proof.
  intros Ha. apply (Delete_at_hit (Compare a) _ a l r); [|exact Ha].
  now apply splay_at_root.
Qed.

(** X5. After [Insert(a)] the root holds [a]; deleting [a] right away
    gives back the in-order sequence and the length the tree had
    before, whatever the tree.  It only takes [a] to compare equal to
    itself. *)
Theorem Insert_then_Delete a t :
  Compare a a = 0 ->
  root_value (Root (Insert Compare a t)) = Some a /\
  inorder (Root (Delete (Compare a) (Insert Compare a t))) = inorder (Root t) /\
  Tree_Len (Delete (Compare a) (Insert Compare a t)) = Tree_Len t.
Proof.
  intros Ha. split; [apply Insert_root|].
  assert (E : inorder (Root (Delete (Compare a) (Insert Compare a t)))
              = inorder (Root t)).
  { destruct (Insert_spec_holds Compare a t)
      as [Hnil|z l r _ Es _|z l r _ Es _|z l r _ Es _];
      rewrite (Delete_at_root _ _ _ Ha);
      try (rewrite <- (splay_inorder (Compare a) (Root t)), Es);
      cbn [inorder]; rewrite <- ?app_assoc; try reflexivity.
    now rewrite Hnil. }
  split; [exact E|]. unfold Tree_Len. now rewrite !Len_length, E.
Qed.

(** ** Deleting a stored value *)

(** X6. On an ordered tree that holds a value equal to [a], [Delete(a)]
    deletes one instance only: the length drops by one, the number of
    nodes equal to [a] drops by one, and the count of every value not
    equal to [a] is unchanged. *)
Theorem Delete_present_removes_one (Hord : total_order Compare) a t :
  ascending Compare (inorder (Root t)) ->
  present Compare a t = true ->
  Tree_Len (Delete (Compare a) t) = Tree_Len t - 1 /\
  occurrences Compare a (Delete (Compare a) t) = occurrences Compare a t - 1 /\
  (forall x, Compare x a <> 0 ->
     occurrences Compare x (Delete (Compare a) t) = occurrences Compare x t).
Proof.
  intros Hn P. split; [|split].
  - rewrite (Tree_Len_Delete Compare Hord a t Hn), P. reflexivity.
  - rewrite (occurrences_Delete Compare Hord a a t Hn), P.
    now rewrite (Compare_refl Compare Hord), Z.eqb_refl.
  - intros x Hx. rewrite (occurrences_Delete Compare Hord x a t Hn).
    apply Z.eqb_neq in Hx. rewrite Hx. cbn. lia.
Qed.

(** ** Min and Max on any tree *)

(** X7. Whatever the tree, ordered or not, [Min()] returns the first
    value of the in-order sequence and [Max()] the last, the zero value
    standing in when there is none; a splay, which keeps that sequence,
    changes neither. *)
Theorem Min_Max_ends (zeroVal : T) t :
  Min zeroVal t = hd zeroVal (inorder (Root t)) /\
  Max zeroVal t = last (inorder (Root t)) zeroVal /\
  forall v,
    Min zeroVal (mkTree (splay v (Root t))) = Min zeroVal t /\
    Max zeroVal (mkTree (splay v (Root t))) = Max zeroVal t.
Proof.
  assert (Hmin : forall t', Min zeroVal t' = hd zeroVal (inorder (Root t'))).
  { intros t'. unfold Min. destruct (Root t') as [|x l r]; [reflexivity|].
    destruct (Min_iface_first x l r) as (rest & ->). reflexivity. }
  assert (Hmax : forall t', Max zeroVal t' = last (inorder (Root t')) zeroVal).
  { intros t'. unfold Max. destruct (Root t') as [|x l r]; [reflexivity|].
    destruct (Max_iface_last x l r) as (front & ->).
    now rewrite last_last. }
  split; [apply Hmin|]. split; [apply Hmax|].
  intros v. rewrite !Hmin, !Hmax. cbn [Root].
  now rewrite splay_inorder.
Qed.

(** ** Insertions in order *)

Lemma height_left_only x l : height (node x l nil) = 1 + height l.
Proof.
  pose proof (height_nonneg l). cbn [height]. cbv zeta.
  destruct (Z.ltb_spec 0 (height l)); lia.
Qed.

Lemma height_right_only x r : height (node x nil r) = 1 + height r.
Proof.
  pose proof (height_nonneg r). cbn [height]. cbv zeta.
  destruct (Z.ltb_spec (height r) 0); lia.
Qed.

Lemma Insert_above_root a x l :
  0 < Compare a x ->
  Insert Compare a (mkTree (node x l nil)) =
  mkTree (node a (node x l nil) nil).
Proof.
  intros H.
  assert (E1 : (Compare a x <? 0) = false) by (apply Z.ltb_ge; lia).
  assert (E2 : (0 <? Compare a x) = true) by (apply Z.ltb_lt; lia).
  unfold Insert. cbn [Root is_nil splay]. cbv zeta.
  rewrite E1, E2. cbv iota. now rewrite E1, E2.
Qed.

Lemma Insert_below_root a x r :
  Compare a x < 0 ->
  Insert Compare a (mkTree (node x nil r)) =
  mkTree (node a nil (node x nil r)).
Proof.
  intros H.
  assert (E1 : (Compare a x <? 0) = true) by (apply Z.ltb_lt; lia).
  unfold Insert. cbn [Root is_nil splay]. cbv zeta.
  rewrite E1. cbv iota. now rewrite E1.
Qed.

Lemma increasing_chain xs : forall x l,
  increasing Compare (x :: xs) ->
  Height (run Compare (map (@CallInsert T) xs) (mkTree (node x l nil))) =
  height (node x l nil) + Z.of_nat (length xs).
Proof.
  induction xs as [|y xs IH]; intros x l Hs; cbn [map run fold_left].
  - unfold Height. cbn [Root length]. lia.
  - change (fold_left _ ?cs ?u) with (run Compare cs u). cbn [step].
    apply Sorted_inv in Hs. destruct Hs as [Hs Hxy].
    apply HdRel_inv in Hxy.
    rewrite (Insert_above_root y x l Hxy), (IH y (node x l nil) Hs).
    rewrite (height_left_only y). cbn [length]. lia.
Qed.

Lemma decreasing_chain xs : forall x r,
  decreasing Compare (x :: xs) ->
  Height (run Compare (map (@CallInsert T) xs) (mkTree (node x nil r))) =
  height (node x nil r) + Z.of_nat (length xs).
Proof.
  induction xs as [|y xs IH]; intros x r Hs; cbn [map run fold_left].
  - unfold Height. cbn [Root length]. lia.
  - change (fold_left _ ?cs ?u) with (run Compare cs u). cbn [step].
    apply Sorted_inv in Hs. destruct Hs as [Hs Hxy].
    apply HdRel_inv in Hxy.
    rewrite (Insert_below_root y x r Hxy), (IH y (node x nil r) Hs).
    rewrite (height_right_only y). cbn [length]. lia.
Qed.

Lemma Tree_Len_after_inserts (xs : list T) : forall t,
  Tree_Len (run Compare (map (@CallInsert T) xs) t) =
  Tree_Len t + Z.of_nat (length xs).
Proof.
  induction xs as [|x xs IH]; intros t; cbn [map run fold_left].
  - cbn [length]. lia.
  - change (fold_left _ ?cs ?u) with (run Compare cs u). cbn [step].
    rewrite IH, Tree_Len_Insert. cbn [length]. lia.
Qed.

(** X8. Inserting values in strictly increasing order, or in strictly
    decreasing order, into an empty tree builds a single branch: the
    height equals the number of values inserted, which is the length. *)
Theorem monotone_insertions_degenerate (xs : list T) :
  increasing Compare xs \/ decreasing Compare xs ->
  let t := run Compare (map (@CallInsert T) xs) empty in
  Height t = Z.of_nat (length xs) /\ Height t = Tree_Len t.
Proof.
  intros H t.
  assert (E : Height t = Z.of_nat (length xs)).
  { unfold t. destruct xs as [|x xs]; [reflexivity|].
    cbn [map run fold_left].
    change (fold_left _ ?cs ?u) with (run Compare cs u).
    cbn [step].
    change (Insert Compare x empty) with (mkTree (node x (@nil T) nil)).
    destruct H as [H|H].
    - rewrite (increasing_chain xs x nil H), height_left_only.
      cbn [height length]. lia.
    - rewrite (decreasing_chain xs x nil H), height_right_only.
      cbn [height length]. lia. }
  split; [exact E|]. rewrite E. unfold t.
  rewrite Tree_Len_after_inserts. reflexivity.
Qed.

End Coverage.

(** ** The comparison and the checks of the test suite *)

Lemma NumValue_Compare_cases (n x : NumValue) :
  (x < n /\ NumValue_Compare n x = 1) \/
  (n < x /\ NumValue_Compare n x = -1) \/
  (n = x /\ NumValue_Compare n x = 0).
Proof.
  unfold NumValue_Compare.
  destruct (Z.ltb_spec x n); [auto|].
  destruct (Z.ltb_spec n x); [auto|]. right; right. split; [lia|reflexivity].
Qed.

(** X10. [NumValue.Compare] returns 1, -1 or 0 according to whether the
    receiver is greater than, less than or equal to its argument;
    swapping the two negates the result, and the comparison meets the
    contract asked of callers. *)
Theorem NumValue_Compare_contract (n x : NumValue) :
  (NumValue_Compare n x = 1 <-> x < n) /\
  (NumValue_Compare n x = -1 <-> n < x) /\
  (NumValue_Compare n x = 0 <-> n = x) /\
  NumValue_Compare n x = - NumValue_Compare x n /\
  total_order NumValue_Compare.
Proof.
  split; [|split; [|split; [|split; [|exact NumValue_total_order]]]];
    destruct (NumValue_Compare_cases n x) as [[H E]|[[H E]|[H E]]],
      (NumValue_Compare_cases x n) as [[H' E']|[[H' E']|[H' E']]];
    rewrite ?E, ?E'; try split; lia.
Qed.

Lemma NumValue_Compare_eqb (k x : NumValue) :
  (NumValue_Compare k x =? 0) = (x =? k).
Proof.
  destruct (NumValue_Compare_cases k x) as [[H ->]|[[H ->]|[H ->]]];
    symmetry; [apply Z.eqb_neq; lia|apply Z.eqb_neq; lia|apply Z.eqb_eq; lia].
Qed.

Lemma bst_properlySorted (n : Node NumValue) :
  bst NumValue_Compare n -> properlySorted n = true.
Proof.
  induction n as [|x l IHl r IHr]; [reflexivity|].
  cbn [bst properlySorted]. intros (Hl & Hr & Hlx & Hxr).
  rewrite (IHl Hl), (IHr Hr). cbn [negb orb].
  assert (El : (negb (is_nil l) &&
                match l with
                | nil => false
                | node xl _ _ => 0 <? NumValue_Compare xl x
                end) = false).
  { destruct l as [|xl ll lr]; [reflexivity|]. cbn [is_nil negb andb].
    apply Z.ltb_ge. rewrite Forall_forall in Hlx.
    apply (Hlx xl). cbn [inorder]. apply in_elt. }
  assert (Er : (negb (is_nil r) &&
                match r with
                | nil => false
                | node xr _ _ => NumValue_Compare xr x <? 0
                end) = false).
  { destruct r as [|xr rl rr]; [reflexivity|]. cbn [is_nil negb andb].
    apply Z.ltb_ge. rewrite Forall_forall in Hxr.
    assert (H : leq NumValue_Compare x xr).
    { apply (Hxr xr). cbn [inorder]. apply in_elt. }
    unfold leq in H.
    destruct (NumValue_Compare_cases x xr) as [[? E]|[[? E]|[? E]]],
      (NumValue_Compare_cases xr x) as [[? E']|[[? E']|[? E']]];
      rewrite ?E, ?E' in *; lia. }
  now rewrite El, Er.
Qed.

(** X9. [properlySorted] accepts every tree that meets the ordering
    invariant, hence every tree reached by calls from the empty one: the
    check of the test suite never fails.  It looks at each node's two
    children only, and also accepts trees that break the invariant. *)
Theorem properlySorted_accepts :
  (forall n, bst NumValue_Compare n -> properlySorted n = true) /\
  (forall cs, properlySorted (Root (run NumValue_Compare cs empty)) = true) /\
  (exists n, properlySorted n = true /\ ~ bst NumValue_Compare n).
Proof.
  split; [exact bst_properlySorted|]. split.
  - intros cs. apply bst_properlySorted.
    apply (bst_ascending _ NumValue_total_order).
    apply (run_ascending _ NumValue_total_order). constructor.
  - exists (node 5 (node 3 nil (node 9 nil nil)) nil).
    split; [reflexivity|]. cbn. intros (_ & _ & H & _).
    apply Forall_inv_tail, Forall_inv in H. unfold leq in H.
    vm_compute in H. now apply H.
Qed.

(** *** Maps of counts *)

Lemma map_get_set k k' y m :
  map_get k (map_set k' y m) = if k' =? k then y else map_get k m.
Proof.
  induction m as [|[k0 y0] m IH]; cbn [map_set map_get].
  - reflexivity.
  - destruct (Z.eqb_spec k0 k') as [->|Hne]; cbn [map_get].
    + destruct (k' =? k); reflexivity.
    + rewrite IH. destruct (Z.eqb_spec k0 k) as [->|]; [|reflexivity].
      destruct (Z.eqb_spec k' k); [congruence|reflexivity].
Qed.

Lemma map_set_keys k' k y m :
  In k' (map fst (map_set k y m)) <-> k' = k \/ In k' (map fst m).
Proof.
  induction m as [|[k0 y0] m IH]; cbn [map_set map fst In].
  - intuition.
  - destruct (Z.eqb_spec k0 k) as [->|Hne]; cbn [map fst In].
    + intuition.
    + rewrite IH. intuition.
Qed.

Lemma map_wf_set k y m : map_wf m -> map_wf (map_set k y m).
Proof.
  unfold map_wf. induction m as [|[k0 y0] m IH]; cbn [map_set map fst].
  - intros _. repeat constructor. intros [].
  - intros H. apply NoDup_cons_iff in H. destruct H as [Hk0 Hm].
    destruct (Z.eqb_spec k0 k) as [->|Hne]; cbn [map fst].
    + now constructor.
    + constructor; [|auto]. rewrite map_set_keys. intuition.
Qed.

Lemma map_get_absent k m : ~ In k (map fst m) -> map_get k m = 0.
Proof.
  induction m as [|[k0 y0] m IH]; cbn [map fst In map_get]; [reflexivity|].
  intros H. destruct (Z.eqb_spec k0 k); [tauto|]. apply IH. tauto.
Qed.

Lemma map_all_zero m :
  map_wf m ->
  (forallb (fun e => snd e =? 0) m = true <-> forall k, map_get k m = 0).
Proof.
  unfold map_wf. induction m as [|[k0 y0] m IH];
    cbn [forallb map fst snd map_get].
  - intros _. split; auto.
  - intros H. apply NoDup_cons_iff in H. destruct H as [Hk0 Hm].
    rewrite andb_true_iff, (IH Hm), Z.eqb_eq. split.
    + intros [-> Hz] k. destruct (k0 =? k); auto.
    + intros Hz. split.
      * specialize (Hz k0). now rewrite Z.eqb_refl in Hz.
      * intros k. destruct (Z.eqb_spec k0 k) as [<-|Hne].
        { now apply map_get_absent. }
        specialize (Hz k). destruct (Z.eqb_spec k0 k); [tauto|exact Hz].
Qed.

(** Copying a map entry by entry. *)
Lemma map_copy vals : forall acc,
  map_wf vals -> map_wf acc ->
  let c := fold_left (fun m e => map_set (fst e) (snd e) m) vals acc in
  map_wf c /\
  forall k, map_get k c =
            if existsb (Z.eqb k) (map fst vals) then map_get k vals
            else map_get k acc.
Proof.
  unfold map_wf. induction vals as [|[k0 y0] vals IH]; intros acc Hv Ha;
    cbn [fold_left map fst snd existsb map_get].
  - auto.
  - apply NoDup_cons_iff in Hv. destruct Hv as [Hk0 Hv].
    destruct (IH (map_set k0 y0 acc) Hv (map_wf_set k0 y0 acc Ha)) as [Hwf Hget].
    split; [exact Hwf|]. intros k. rewrite Hget, map_get_set.
    rewrite (Z.eqb_sym k k0).
    destruct (Z.eqb_spec k0 k) as [<-|Hne]; cbn [orb]; [|reflexivity].
    destruct (existsb (Z.eqb k0) (map fst vals)) eqn:E; [|reflexivity].
    exfalso. apply Hk0. apply existsb_exists in E.
    destruct E as (k' & Hin & Heq). apply Z.eqb_eq in Heq. now subst.
Qed.

Lemma count_Z_cons k x xs :
  count_Z k (x :: xs) = (if x =? k then 1 else 0) + count_Z k xs.
Proof.
  unfold count_Z. cbn [count_eq]. now rewrite NumValue_Compare_eqb.
Qed.

Lemma count_Z_app k xs ys : count_Z k (xs ++ ys) = count_Z k xs + count_Z k ys.
Proof. apply count_eq_app. Qed.

(** What [subtractNodeValues] leaves in the map. *)
Lemma subtractNodeValues_get (n : Node NumValue) : forall vals,
  map_wf vals ->
  map_wf (subtractNodeValues n vals) /\
  forall k, map_get k (subtractNodeValues n vals) =
            map_get k vals - count_Z k (inorder n).
Proof.
  induction n as [|x l IHl r IHr]; intros vals Hwf;
    cbn [subtractNodeValues inorder]; cbv zeta.
  - split; [exact Hwf|]. intros k. unfold count_Z. cbn. lia.
  - pose proof (map_wf_set x (map_get x vals - 1) vals Hwf) as H1.
    destruct (IHl _ H1) as [H2 G2]. destruct (IHr _ H2) as [H3 G3].
    split; [exact H3|]. intros k.
    rewrite G3, G2, map_get_set, count_Z_app, count_Z_cons.
    destruct (Z.eqb_spec x k) as [->|]; lia.
Qed.

(** What [containsValues] computes. *)
Lemma containsValues_counts (t : Tree NumValue) (vals : IntMap) :
  map_wf vals ->
  (containsValues t vals = true <->
   forall k, map_get k vals = count_Z k (inorder (Root t))).
Proof.
  intros Hwf. unfold containsValues. cbv zeta.
  destruct (map_copy vals [] Hwf (NoDup_nil _)) as [Hc Gc]. cbv zeta in Hc, Gc.
  destruct (subtractNodeValues_get (Root t) _ Hc) as [Hs Gs].
  rewrite (map_all_zero _ Hs).
  assert (Gv : forall k,
    map_get k (fold_left (fun m e => map_set (fst e) (snd e) m) vals []) =
    map_get k vals).
  { intros k. rewrite Gc.
    destruct (existsb (Z.eqb k) (map fst vals)) eqn:E; [reflexivity|].
    symmetry. apply map_get_absent. intros Hin.
    assert (existsb (Z.eqb k) (map fst vals) = true); [|congruence].
    apply existsb_exists. exists k. split; [exact Hin|apply Z.eqb_refl]. }
  split; intros H k; specialize (H k); rewrite Gs, Gv in *; lia.
Qed.

(** X11. On a map with one entry per key, [containsValues] returns true
    exactly when the map gives, for every integer, the number of nodes
    of the tree holding it (0 for the keys it does not have). *)
Theorem containsValues_iff (t : Tree NumValue) (vals : IntMap) :
  map_wf vals ->
  (containsValues t vals = true <->
   forall k, map_get k vals = count_Z k (inorder (Root t))).
Proof.
  intros Hwf. split.
  - apply (proj1 (containsValues_counts t vals Hwf)).
  - apply (proj2 (containsValues_counts t vals Hwf)).
Qed.

Lemma count_values_get (xs : list NumValue) : forall acc,
  map_wf acc ->
  let m := fold_left (fun m n => map_set n (map_get n m + 1) m) xs acc in
  map_wf m /\ forall k, map_get k m = map_get k acc + count_Z k xs.
Proof.
  induction xs as [|x xs IH]; intros acc Hwf; cbn [fold_left]; cbv zeta.
  - split; [exact Hwf|]. intros k. unfold count_Z. cbn. lia.
  - destruct (IH _ (map_wf_set x (map_get x acc + 1) acc Hwf)) as [H G].
    split; [exact H|]. intros k.
    rewrite G, map_get_set, count_Z_cons.
    destruct (Z.eqb_spec x k) as [->|]; lia.
Qed.

(** X12. The two checks [TestInsertions] makes after each insertion
    hold for every sequence of inserted values: the tree is accepted by
    [properlySorted], and [containsValues] finds in it exactly the
    values counted so far. *)
Theorem TestInsertions_checks_hold (xs : list NumValue) :
  let t := run NumValue_Compare (map (@CallInsert NumValue) xs) empty in
  properlySorted (Root t) = true /\
  containsValues t (count_values xs) = true.
Proof.
  intros t. split.
  - apply bst_properlySorted.
    apply (bst_ascending _ NumValue_total_order).
    apply (run_ascending _ NumValue_total_order). constructor.
  - destruct (count_values_get xs [] (NoDup_nil _)) as [Hwf G].
    cbv zeta in Hwf, G. apply (containsValues_counts t _ Hwf).
    intros k. unfold count_values. rewrite G. cbn [map_get].
    unfold count_Z, t.
    change (count_eq NumValue_Compare k
              (inorder (Root (run NumValue_Compare
                                (map (@CallInsert NumValue) xs) empty))))
      with (occurrences NumValue_Compare k
              (run NumValue_Compare (map (@CallInsert NumValue) xs) empty)).
    rewrite (run_occurrences _ NumValue_total_order k _ empty)
      by constructor.
    rewrite inserts_of_map, successful_deletes_of_inserts.
    unfold occurrences. cbn. lia.
Qed.

(** ** Rendering as text *)

Module TextFacts.

Import String Ascii Text.

Lemma append_String_assoc (a b c : string) :
  append (append a b) c = append a (append b c).
Proof. induction a as [|ch a IH]; cbn; [reflexivity|]. now rewrite IH. Qed.

Lemma Split_not_nil s : Split s <> [].
Proof.
  destruct s as [|c s]; cbn [Split]; [discriminate|].
  destruct (Ascii.eqb c newline); [discriminate|].
  destruct (Split s); discriminate.
Qed.

Lemma Join_cons_char c line lines :
  Join (String c line :: lines) = String c (Join (line :: lines)).
Proof. cbn [Join]. destruct lines; reflexivity. Qed.

(** Joining the lines of a text gives the text back. *)
Lemma Join_Split s : Join (Split s) = s.
Proof.
  induction s as [|c s IH]; [reflexivity|]. cbn [Split].
  destruct (Ascii.eqb_spec c newline) as [->|Hc].
  - pose proof (Split_not_nil s) as Hne. cbn [Join].
    destruct (Split s) as [|line lines]; [now destruct Hne|].
    now rewrite IH.
  - pose proof (Split_not_nil s) as Hne.
    destruct (Split s) as [|line lines]; [now destruct Hne|].
    now rewrite Join_cons_char, IH.
Qed.

Lemma Split_lines_one_line s : Forall (fun l => one_line l = true) (Split s).
Proof.
  induction s as [|c s IH]; cbn [Split]; [now repeat constructor|].
  destruct (Ascii.eqb c newline) eqn:Hc.
  - now constructor.
  - pose proof (Split_not_nil s) as Hne.
    destruct (Split s) as [|line lines]; [now destruct Hne|].
    apply Forall_cons_iff in IH. destruct IH as [Hl Hls].
    constructor; [|exact Hls]. cbn [one_line]. now rewrite Hc, Hl.
Qed.

Lemma Split_one_line s : one_line s = true -> Split s = [s].
Proof.
  induction s as [|c s IH]; cbn [one_line Split]; [reflexivity|].
  intros H. apply andb_true_iff in H. destruct H as [Hc Hs].
  apply negb_true_iff in Hc. rewrite Hc, (IH Hs). reflexivity.
Qed.

Lemma Split_append_newline line rest :
  one_line line = true ->
  Split (append line (String newline rest)) = line :: Split rest.
Proof.
  induction line as [|c line IH]; cbn [one_line append Split].
  - intros _. now rewrite Ascii.eqb_refl.
  - intros H. apply andb_true_iff in H. destruct H as [Hc Hs].
    apply negb_true_iff in Hc. rewrite Hc, (IH Hs). reflexivity.
Qed.

(** Splitting the join of texts without line break gives them back. *)
Lemma Split_Join lines :
  lines <> [] -> Forall (fun l => one_line l = true) lines ->
  Split (Join lines) = lines.
Proof.
  induction lines as [|l lines IH]; [intros H; now destruct H|].
  intros _ H. apply Forall_cons_iff in H. destruct H as [Hl Hls].
  destruct lines as [|l2 lines].
  - cbn [Join]. now apply Split_one_line.
  - change (Join (l :: l2 :: lines))
      with (append l (String newline (Join (l2 :: lines)))).
    rewrite (Split_append_newline _ _ Hl), IH; [reflexivity|discriminate|exact Hls].
Qed.

Lemma Join_app xs ys :
  xs <> [] -> ys <> [] ->
  Join (xs ++ ys) = append (Join xs) (String newline (Join ys)).
Proof.
  induction xs as [|x xs IH]; [intros H; now destruct H|].
  intros _ Hys. destruct xs as [|x2 xs].
  - cbn [app Join]. destruct ys; [now destruct Hys|reflexivity].
  - change (Join ((x :: x2 :: xs) ++ ys))
      with (append x (String newline (Join ((x2 :: xs) ++ ys)))).
    rewrite IH by (discriminate || assumption).
    change (Join (x :: x2 :: xs))
      with (append x (String newline (Join (x2 :: xs)))).
    now rewrite append_String_assoc.
Qed.

Lemma indent_lines_one_line lines :
  Forall (fun l => one_line l = true) lines ->
  Forall (fun l => one_line l = true) (indent_lines lines).
Proof.
  unfold indent_lines. intros H. apply Forall_map.
  eapply Forall_impl; [|exact H]. intros l Hl. cbn. exact Hl.
Qed.

Lemma indent_lines_not_nil lines : lines <> [] -> indent_lines lines <> [].
Proof. destruct lines; [intros H; now destruct H|discriminate]. Qed.

(** X13. [indentString] puts two spaces in front of every line of its
    argument and changes nothing else: the lines of the result are the
    lines of the argument, each with the two spaces before it. *)
Theorem indentString_lines s :
  Split (indentString s) = indent_lines (Split s) /\
  List.length (Split (indentString s)) = List.length (Split s) /\
  Forall2 (fun line line' => line' = append "  "%string line)
    (Split s) (Split (indentString s)).
Proof.
  assert (E : Split (indentString s) = indent_lines (Split s)).
  { unfold indentString. apply Split_Join.
    - apply indent_lines_not_nil, Split_not_nil.
    - apply indent_lines_one_line, Split_lines_one_line. }
  rewrite E. clear E. unfold indent_lines. split; [reflexivity|].
  split; [apply length_map|].
  induction (Split s); cbn [map]; constructor; auto.
Qed.

Section RenderingFacts.

Context {T : Type} (show : T -> string).

Hypothesis show_one_line : forall x, one_line (show x) = true.

Lemma Node_String_render (n : Node T) :
  Node_String show n = Join (render show n) /\
  Forall (fun l => one_line l = true) (render show n) /\
  render show n <> [].
Proof.
  induction n as [|x l IHl r IHr]; cbn [Node_String render].
  - repeat split; [now repeat constructor|discriminate].
  - destruct IHl as (El & Fl & Nl). destruct IHr as (Er & Fr & Nr).
    assert (Il : indentString (Node_String show l)
                 = Join (indent_lines (render show l))).
    { unfold indentString. now rewrite El, (Split_Join _ Nl Fl). }
    assert (Ir : indentString (Node_String show r)
                 = Join (indent_lines (render show r))).
    { unfold indentString. now rewrite Er, (Split_Join _ Nr Fr). }
    pose proof (indent_lines_not_nil _ Nl) as Nl'.
    pose proof (indent_lines_not_nil _ Nr) as Nr'.
    split; [|split; [|discriminate]].
    + rewrite Il, Ir, <- (Join_app _ _ Nl' Nr').
      cbn [Join]. destruct (indent_lines (render show l) ++ _) eqn:E;
        [|reflexivity].
      apply app_eq_nil in E. now destruct Nl'.
    + constructor; [apply show_one_line|].
      apply Forall_app. split; now apply indent_lines_one_line.
Qed.

Lemma render_length (n : Node T) :
  Z.of_nat (List.length (render show n)) = 2 * Len n + 1.
Proof.
  induction n as [|x l IHl r IHr]; cbn [render Len]; [reflexivity|].
  cbn [List.length]. unfold indent_lines.
  rewrite length_app, !length_map. lia.
Qed.

(** X14. When values print without line break, the text [String()]
    returns has one line for every node and one line [nil] for every
    missing child, [2 * Len() + 1] lines in all: the root's value, then
    the rendering of the left subtree and that of the right subtree,
    every line of theirs two spaces further in. *)
Theorem Tree_String_lines (t : Tree T) :
  Split (Tree_String show t) = render show (Root t) /\
  Z.of_nat (List.length (Split (Tree_String show t))) = 2 * Tree_Len t + 1.
Proof.
  destruct (Node_String_render (Root t)) as (E & F & N).
  assert (H : Split (Tree_String show t) = render show (Root t)).
  { unfold Tree_String. rewrite E. now apply Split_Join. }
  split; [exact H|]. rewrite H. apply render_length.
Qed.

End RenderingFacts.

(** X14 on a tree of two booleans. *)
Lemma Tree_String_lines_witness :
  let t := mkTree (node true (node false nil nil) nil) in
  Split (Tree_String show_bool t) = render show_bool (Root t) /\
  Z.of_nat (List.length (Split (Tree_String show_bool t))) = 2 * Tree_Len t + 1.
Proof.
  apply (Tree_String_lines show_bool). intros []; reflexivity.
Defined.

End TextFacts.

(** ** The further properties on the integer values of the test suite *)

Lemma dup4_ascending : ascending NumValue_Compare (inorder (Root dup4)).
Proof. apply (run_ascending _ NumValue_total_order). constructor. Qed.

(** X3 on the tree of the second example scenario and the value 5. *)
Lemma splay_finds_stored_value_witness :
  exists x l r,
    splay (NumValue_Compare 5) (Root dup4) = node x l r /\
    NumValue_Compare 5 x = 0 /\
    splay (NumValue_Compare 5) (splay (NumValue_Compare 5) (Root dup4)) =
    splay (NumValue_Compare 5) (Root dup4).
Proof.
  apply (splay_finds_stored_value NumValue_Compare NumValue_total_order
           5 (Root dup4) 5).
  - exact dup4_ascending.
  - vm_compute. auto.
  - reflexivity.
Defined.

(** X5 on the tree of the second example scenario and the value 3. *)
Lemma Insert_then_Delete_witness :
  root_value (Root (Insert NumValue_Compare 3 dup4)) = Some 3 /\
  inorder (Root (Delete (NumValue_Compare 3) (Insert NumValue_Compare 3 dup4)))
    = inorder (Root dup4) /\
  Tree_Len (Delete (NumValue_Compare 3) (Insert NumValue_Compare 3 dup4))
    = Tree_Len dup4.
Proof.
  apply (Insert_then_Delete NumValue_Compare 3 dup4). reflexivity.
Defined.

(** X6 on the tree of the second example scenario, which holds 3 twice. *)
Lemma Delete_present_removes_one_witness :
  Tree_Len (Delete (NumValue_Compare 3) dup4) = Tree_Len dup4 - 1 /\
  occurrences NumValue_Compare 3 (Delete (NumValue_Compare 3) dup4)
    = occurrences NumValue_Compare 3 dup4 - 1 /\
  (forall x, NumValue_Compare x 3 <> 0 ->
     occurrences NumValue_Compare x (Delete (NumValue_Compare 3) dup4)
     = occurrences NumValue_Compare x dup4).
Proof.
  apply (Delete_present_removes_one NumValue_Compare NumValue_total_order
           3 dup4).
  - exact dup4_ascending.
  - reflexivity.
Defined.

(** X8 on the values 1 to 4: the tree is [chain4]. *)
Lemma monotone_insertions_degenerate_witness :
  let t := run NumValue_Compare
             (map (@CallInsert NumValue) [1; 2; 3; 4]) empty in
  Height t = Z.of_nat (length [1; 2; 3; 4]) /\ Height t = Tree_Len t.
Proof.
  apply (monotone_insertions_degenerate NumValue_Compare [1; 2; 3; 4]).
  left. unfold increasing. repeat constructor.
Defined.

(** X11 on the tree of the second example scenario and its counts. *)
Lemma containsValues_iff_witness :
  containsValues dup4 [(3, 2); (5, 1); (8, 1)] = true <->
  forall k, map_get k [(3, 2); (5, 1); (8, 1)]
            = count_Z k (inorder (Root dup4)).
Proof.
  apply (containsValues_iff dup4 [(3, 2); (5, 1); (8, 1)]).
  unfold map_wf. cbn [map fst].
  repeat constructor; cbn [In]; intuition discriminate.
Defined.

(** ** Passes that never stop, passes that stop at once *)

Section IterateEdges.

Context {T S : Type} (f : T -> S -> bool * S).

Lemma visit_seq_never_stopped (xs : list T) : forall w : S * list T,
  (forall x s, fst (f x s) = true) ->
  fst (visit_seq f xs w) = true /\
  snd (snd (visit_seq f xs w)) = snd w ++ xs.
Proof.
  induction xs as [|x xs IH]; intros w Hf; cbn [visit_seq].
  - cbn. now rewrite app_nil_r.
  - unfold call_visit. pose proof (Hf x (fst w)) as Hx.
    destruct (f x (fst w)) as [b s']. cbn [fst] in Hx. subst b.
    destruct (IH (s', snd w ++ [x]) Hf) as [H1 H2].
    split; [exact H1|]. rewrite H2. cbn [snd]. now rewrite <- app_assoc.
Qed.

(** X15. With a visit function that never asks to stop, [Iterate]
    calls it on every stored value, in in-order sequence, [Len()] calls
    in all, and the pass over the nodes reports that it was not
    stopped; on an empty tree no call is made. *)
Theorem Iterate_never_stopped (t : Tree T) (w : S * list T) :
  (forall x s, fst (f x s) = true) ->
  fst (Node_Iterate f (Root t) w) = true /\
  snd (Iterate f t w) = snd w ++ inorder (Root t) /\
  Z.of_nat (length (snd (Iterate f t w))) =
    Z.of_nat (length (snd w)) + Tree_Len t /\
  Iterate f empty w = w.
Proof.
  intros Hf. unfold Iterate. rewrite Node_Iterate_visit_seq.
  destruct (visit_seq_never_stopped (inorder (Root t)) w Hf) as [H1 H2].
  repeat split; auto.
  rewrite H2, length_app. unfold Tree_Len. rewrite Len_length. lia.
Qed.

(** X16. With a visit function that returns false on its first call,
    the call on the value [Min()] returns, [Iterate] on a non-empty
    tree makes exactly that one call, and the pass reports that it was
    stopped. *)
Theorem Iterate_stopped_at_once (t : Tree T) (w : S * list T) (zeroVal : T) :
  Root t <> nil ->
  fst (f (Min zeroVal t) (fst w)) = false ->
  fst (Node_Iterate f (Root t) w) = false /\
  snd (Iterate f t w) = snd w ++ [Min zeroVal t].
Proof.
  intros Hne. unfold Iterate. rewrite Node_Iterate_visit_seq.
  unfold Min. destruct (Root t) as [|x l r]; [now destruct Hne|].
  intros Hx. destruct (Min_iface_first x l r) as (rest & ->).
  cbn [visit_seq]. unfold call_visit.
  destruct (f (walk_left x l) (fst w)) as [b s']. cbn [fst] in Hx. subst b.
  split; reflexivity.
Qed.

End IterateEdges.

(** X15 on the tree of the second example scenario, with a visit
    function that counts its calls. *)
Lemma Iterate_never_stopped_witness :
  let f := fun (_ : NumValue) (s : Z) => (true, s + 1) in
  fst (Node_Iterate f (Root dup4) (0, [])) = true /\
  snd (Iterate f dup4 (0, [])) = [] ++ inorder (Root dup4) /\
  Z.of_nat (length (snd (Iterate f dup4 (0, [])))) =
    Z.of_nat (length (@Datatypes.nil NumValue)) + Tree_Len dup4 /\
  Iterate f empty (0, []) = (0, []).
Proof.
  exact (Iterate_never_stopped (fun (_ : NumValue) (s : Z) => (true, s + 1))
           dup4 (0, []) (fun _ _ => eq_refl)).
Defined.

(** X16 on the tree of the second example scenario, with a visit
    function that returns false on its first call only. *)
Lemma Iterate_stopped_at_once_witness :
  let f := fun (_ : NumValue) (s : Z) => (negb (s =? 0), s + 1) in
  fst (Node_Iterate f (Root dup4) (0, [])) = false /\
  snd (Iterate f dup4 (0, [])) = [] ++ [Min 0 dup4].
Proof.
  apply (Iterate_stopped_at_once
           (fun (_ : NumValue) (s : Z) => (negb (s =? 0), s + 1))
           dup4 (0, []) 0).
  - discriminate.
  - reflexivity.
Defined.

(** ** The check of TestMinMax *)

Lemma iface_of_Min_Max {T : Type} (zeroVal : T) (t : Tree T) :
  Root t <> nil ->
  Min_iface t = Some (Min zeroVal t) /\ Max_iface t = Some (Max zeroVal t).
Proof.
  unfold Min_iface, Max_iface, Min, Max.
  destruct (Root t); [intros H; now destruct H|auto].
Qed.

Lemma leq_NumValue (a b : NumValue) : leq NumValue_Compare a b <-> a <= b.
Proof.
  unfold leq.
  destruct (NumValue_Compare_cases a b) as [[? ->]|[[? ->]|[? ->]]]; lia.
Qed.

Lemma running_min_least (xs : list NumValue) : forall x,
  In (running_min x xs) (x :: xs) /\
  Forall (fun y => running_min x xs <= y) (x :: xs).
Proof.
  unfold running_min.
  induction xs as [|y xs IH]; intros x; cbn [fold_left].
  - split; [now left|]. repeat constructor. lia.
  - destruct (IH (if y <? x then y else x)) as [Hin Hall].
    apply Forall_cons_iff in Hall. destruct Hall as [H0 Hall].
    split.
    + destruct Hin as [Hin|Hin]; [|now right; right].
      destruct (y <? x); [right; left|left]; exact Hin.
    + destruct (Z.ltb_spec y x); repeat constructor; auto; lia.
Qed.

Lemma running_max_greatest (xs : list NumValue) : forall x,
  In (running_max x xs) (x :: xs) /\
  Forall (fun y => y <= running_max x xs) (x :: xs).
Proof.
  unfold running_max.
  induction xs as [|y xs IH]; intros x; cbn [fold_left].
  - split; [now left|]. repeat constructor. lia.
  - destruct (IH (if x <? y then y else x)) as [Hin Hall].
    apply Forall_cons_iff in Hall. destruct Hall as [H0 Hall].
    split.
    + destruct Hin as [Hin|Hin]; [|now right; right].
      destruct (x <? y); [right; left|left]; exact Hin.
    + destruct (Z.ltb_spec x y); repeat constructor; auto; lia.
Qed.

(** The values of a tree built by insertions are the values inserted. *)
Lemma inserted_values (xs : list NumValue) (k : NumValue) :
  In k (inorder (Root (run NumValue_Compare
                         (map (@CallInsert NumValue) xs) empty))) <->
  In k xs.
Proof.
  assert (E : count_eq NumValue_Compare k
                (inorder (Root (run NumValue_Compare
                                  (map (@CallInsert NumValue) xs) empty)))
              = count_eq NumValue_Compare k xs).
  { change (count_eq NumValue_Compare k (inorder (Root ?u)))
      with (occurrences NumValue_Compare k u).
    rewrite (run_occurrences _ NumValue_total_order k _ empty)
      by constructor.
    rewrite inserts_of_map, successful_deletes_of_inserts.
    unfold occurrences. cbn. lia. }
  assert (P : forall l, In k l <-> 0 < count_eq NumValue_Compare k l).
  { intros l. rewrite count_eq_pos_iff. split.
    - intros H. exists k. split; [exact H|].
      apply (Compare_refl _ NumValue_total_order).
    - intros (y & Hy & H0).
      destruct (NumValue_Compare_cases k y) as [[? Ec]|[[? Ec]|[? Ec]]];
        rewrite Ec in H0; try discriminate. now subst. }
  now rewrite !P, E.
Qed.

(** X17. The check of [TestMinMax] holds for every non-empty sequence of
    inserted integers: [Min()] returns the least of them and [Max()]
    the greatest, as the running minimum and maximum of the test
    compute them. *)
Theorem TestMinMax_checks_hold (x : NumValue) (xs : list NumValue) :
  let t := run NumValue_Compare (map (@CallInsert NumValue) (x :: xs)) empty in
  Min 0 t = running_min x xs /\ Max 0 t = running_max x xs.
Proof.
  intros t.
  assert (Hn : ascending NumValue_Compare (inorder (Root t))).
  { apply (run_ascending _ NumValue_total_order). constructor. }
  assert (Hne : Root t <> nil).
  { assert (Hin : In x (inorder (Root t))).
    { apply (inserted_values (x :: xs) x). now left. }
    intros E. rewrite E in Hin. destruct Hin. }
  destruct (iface_of_Min_Max 0 t Hne) as [Emin Emax].
  destruct (Min_iface_least _ NumValue_total_order t _ Hn Emin) as [Hi Hl].
  destruct (Max_iface_greatest _ NumValue_total_order t _ Hn Emax) as [Hi' Hg].
  destruct (running_min_least xs x) as [Ri Rl].
  destruct (running_max_greatest xs x) as [Ri' Rg].
  rewrite Forall_forall in *.
  apply (inserted_values (x :: xs)) in Hi, Hi'.
  apply (inserted_values (x :: xs)) in Ri, Ri'. fold t in Ri, Ri'.
  split.
  - pose proof (proj1 (leq_NumValue _ _) (Hl _ Ri)).
    pose proof (Rl _ Hi). lia.
  - pose proof (proj1 (leq_NumValue _ _) (Hg _ Ri')).
    pose proof (Rg _ Hi'). lia.
Qed.
